(** * The screenshot queue manager (src/lib/screenshot-queue-manager.ts)

    A shallow embedding of [ScreenshotQueueManager] and of the small
    [EventEmitter] it owns.  Screenshot items are JavaScript objects: the
    queue array, the closure of a suspended [processNext] and every event
    payload hold the same reference.  The embedding therefore keeps an
    explicit object store ([heap]) and lets the queue, the suspended
    continuations and the emitted events speak about locations in it.

    [processNext] is an async function.  It is cut at its only suspension
    ([await this.processWithAI], followed by [await this.generateSolution],
    between which it touches nothing) into the synchronous prefix
    [processNext] and the continuation [processNext_resume], which the
    environment runs with the outcome of the pipeline. *)

From Stdlib Require Import ZArith Ascii.
From stdpp Require Import base option list gmap strings pretty.

Open Scope string_scope.
Open Scope list_scope.
Open Scope nat_scope.

(** ** Data model (src/types/screenshot-queue.ts) *)

Inductive Status := Pending | Processing | Completed | Error.

#[global] Instance Status_eq_dec : EqDecision Status.
Proof. solve_decision. Defined.

(** [metadata?: { problemStatement?; solution?; error? }]; the [error]
    field is [errorMessage] here, [error] being a counter of the
    statistics record below. *)
Record Metadata := {
  problemStatement : option string;
  solution : option string;
  errorMessage : option string;
}.

Record ScreenshotItem := {
  item_id : string;
  path : string;
  preview : string;
  status : Status;
  timestamp : Z;
  metadata : option Metadata;
}.

Record QueueManagerConfig := {
  maxConcurrent : Z;
  autoProcess : bool;
  retryAttempts : Z;
  retryDelay : Z;
}.

(** [Partial<QueueManagerConfig>] *)
Record PartialConfig := {
  maxConcurrent' : option Z;
  autoProcess' : option bool;
  retryAttempts' : option Z;
  retryDelay' : option Z;
}.

(** [{ ...base, ...partial }] *)
Definition merge_config (base : QueueManagerConfig) (p : PartialConfig)
  : QueueManagerConfig :=
  {| maxConcurrent := default (maxConcurrent base) (maxConcurrent' p);
     autoProcess := default (autoProcess base) (autoProcess' p);
     retryAttempts := default (retryAttempts base) (retryAttempts' p);
     retryDelay := default (retryDelay base) (retryDelay' p) |}.

Definition default_config : QueueManagerConfig :=
  {| maxConcurrent := 3; autoProcess := true;
     retryAttempts := 3; retryDelay := 1000 |}.

Definition no_overrides : PartialConfig :=
  {| maxConcurrent' := None; autoProcess' := None;
     retryAttempts' := None; retryDelay' := None |}.

(** The object returned by [getQueueStats]. *)
Record QueueStats := {
  total : nat;
  pending : nat;
  processing : nat;
  completed : nat;
  error : nat;
}.

(** ** Objects, listeners and the state of the program *)

(** A reference to a [ScreenshotItem] object. *)
Abbreviation loc := nat (only parsing).

(** A registered callback.  It receives the reference passed to [emit] and
    may assign to the fields of that object: [call] is the effect of the call
    on the object.  [handle] stands for the identity of the function value,
    which [off] compares with [!==].  Callbacks that throw, or that call back
    into the manager, are outside the model. *)
Record Listener := {
  handle : nat;
  call : ScreenshotItem → ScreenshotItem;
}.

Record World := {
  (** the fields of [ScreenshotQueueManager] *)
  queue : list loc;
  processingQueue : gset string;
  config : QueueManagerConfig;
  events : gmap string (list Listener);      (* eventEmitter.events *)
  retryCounts : gmap string Z;
  (** the objects allocated so far; a location is never reused *)
  heap : list ScreenshotItem;
  (** what the manager did to its environment, oldest first *)
  emitted : list (string * loc);             (* calls of [emit] *)
  solverCalls : list (loc * string);         (* calls of [processWithAI] *)
  (** what the environment still owes the manager *)
  awaiting : list loc;                       (* suspended [processNext]s *)
  timers : list Z;                           (* pending [setTimeout]s *)
}.

Definition with_queue (q : list loc) (w : World) : World :=
  {| queue := q; processingQueue := processingQueue w; config := config w;
     events := events w; retryCounts := retryCounts w; heap := heap w;
     emitted := emitted w; solverCalls := solverCalls w;
     awaiting := awaiting w; timers := timers w |}.

Definition with_processingQueue (p : gset string) (w : World) : World :=
  {| queue := queue w; processingQueue := p; config := config w;
     events := events w; retryCounts := retryCounts w; heap := heap w;
     emitted := emitted w; solverCalls := solverCalls w;
     awaiting := awaiting w; timers := timers w |}.

Definition with_config (c : QueueManagerConfig) (w : World) : World :=
  {| queue := queue w; processingQueue := processingQueue w; config := c;
     events := events w; retryCounts := retryCounts w; heap := heap w;
     emitted := emitted w; solverCalls := solverCalls w;
     awaiting := awaiting w; timers := timers w |}.

Definition with_events (e : gmap string (list Listener)) (w : World) : World :=
  {| queue := queue w; processingQueue := processingQueue w;
     config := config w; events := e; retryCounts := retryCounts w;
     heap := heap w; emitted := emitted w; solverCalls := solverCalls w;
     awaiting := awaiting w; timers := timers w |}.

Definition with_retryCounts (r : gmap string Z) (w : World) : World :=
  {| queue := queue w; processingQueue := processingQueue w;
     config := config w; events := events w; retryCounts := r;
     heap := heap w; emitted := emitted w; solverCalls := solverCalls w;
     awaiting := awaiting w; timers := timers w |}.

Definition with_heap (h : list ScreenshotItem) (w : World) : World :=
  {| queue := queue w; processingQueue := processingQueue w;
     config := config w; events := events w; retryCounts := retryCounts w;
     heap := h; emitted := emitted w; solverCalls := solverCalls w;
     awaiting := awaiting w; timers := timers w |}.

Definition with_emitted (e : list (string * loc)) (w : World) : World :=
  {| queue := queue w; processingQueue := processingQueue w;
     config := config w; events := events w; retryCounts := retryCounts w;
     heap := heap w; emitted := e; solverCalls := solverCalls w;
     awaiting := awaiting w; timers := timers w |}.

Definition with_solverCalls (c : list (loc * string)) (w : World) : World :=
  {| queue := queue w; processingQueue := processingQueue w;
     config := config w; events := events w; retryCounts := retryCounts w;
     heap := heap w; emitted := emitted w; solverCalls := c;
     awaiting := awaiting w; timers := timers w |}.

Definition with_awaiting (a : list loc) (w : World) : World :=
  {| queue := queue w; processingQueue := processingQueue w;
     config := config w; events := events w; retryCounts := retryCounts w;
     heap := heap w; emitted := emitted w; solverCalls := solverCalls w;
     awaiting := a; timers := timers w |}.

Definition with_timers (t : list Z) (w : World) : World :=
  {| queue := queue w; processingQueue := processingQueue w;
     config := config w; events := events w; retryCounts := retryCounts w;
     heap := heap w; emitted := emitted w; solverCalls := solverCalls w;
     awaiting := awaiting w; timers := t |}.

(** Assignments to the fields of an item. *)
Definition with_status (s : Status) (it : ScreenshotItem) : ScreenshotItem :=
  {| item_id := item_id it; path := path it; preview := preview it;
     status := s; timestamp := timestamp it; metadata := metadata it |}.

Definition with_metadata (m : Metadata) (it : ScreenshotItem)
  : ScreenshotItem :=
  {| item_id := item_id it; path := path it; preview := preview it;
     status := status it; timestamp := timestamp it; metadata := Some m |}.

(** ** A state monad for the methods *)

Definition M (A : Type) : Type := World → A * World.

Definition ret {A} (a : A) : M A := λ w, (a, w).
Definition bind {A B} (m : M A) (k : A → M B) : M B :=
  λ w, let (a, w') := m w in k a w'.
Definition gets {A} (f : World → A) : M A := λ w, (f w, w).
Definition modify (f : World → World) : M unit := λ w, (tt, f w).

Declare Scope js_scope.
Delimit Scope js_scope with js.
Notation "'let!' x ':=' m 'in' k" := (bind m (λ x, k))
  (at level 10, x name, m at level 100, k at level 200) : js_scope.
Notation "m ';;;' k" := (bind m (λ _, k))
  (at level 100, k at level 200, right associativity) : js_scope.
Open Scope js_scope.

(** Reading a field through a reference.  Every reference the manager holds
    was obtained from [alloc], so the defaults are never returned in a world
    the manager can be in (see [wf_reachable]). *)
Definition id_of (l : loc) : M string :=
  gets (λ w, from_option item_id "" (heap w !! l)).
Definition path_of (l : loc) : M string :=
  gets (λ w, from_option path "" (heap w !! l)).

Definition assign (f : ScreenshotItem → ScreenshotItem) (l : loc) : M unit :=
  modify (λ w, with_heap (alter f l (heap w)) w).

(** [{ id, path, preview, status, timestamp }]: a new object. *)
Definition alloc (it : ScreenshotItem) : M loc :=
  λ w, (length (heap w), with_heap (heap w ++ [it]) w).

(** ** EventEmitter *)

(** [on]: the callback is pushed onto the array of its event, which is created
    when missing. *)
Definition on (event : string) (callback : Listener) : M unit :=
  modify (λ w,
    with_events (<[event := default [] (events w !! event) ++ [callback]]>
                   (events w)) w).

(** [off]: [filter(cb => cb !== callback)] on the array of the event, when
    there is one. *)
Definition off (event : string) (callback : Listener) : M unit :=
  modify (λ w,
    match events w !! event with
    | Some cbs =>
        with_events
          (<[event := filter (λ cb, handle cb ≠ handle callback) cbs]>
             (events w)) w
    | None => w
    end).

(** [this.events[event].forEach(callback => callback(data))]: every callback
    is handed the very object [data]. *)
Definition deliver (cbs : list Listener) (it : ScreenshotItem)
  : ScreenshotItem :=
  foldl (λ it cb, call cb it) it cbs.

(** [emit]; with no array for the event nothing is called.  The call is
    recorded in [emitted] either way. *)
Definition emit (event : string) (data : loc) : M unit :=
  modify (λ w,
    with_heap (alter (deliver (default [] (events w !! event))) data (heap w))
      (with_emitted (emitted w ++ [(event, data)]) w)).

(** ** ScreenshotQueueManager *)

(** [new ScreenshotQueueManager(config)] *)
Definition new_manager (cfg : PartialConfig) : World :=
  {| queue := []; processingQueue := ∅;
     config := merge_config default_config cfg;
     events := ∅; retryCounts := ∅; heap := [];
     emitted := []; solverCalls := []; awaiting := []; timers := [] |}.

(** [item.status === s] and [item.id === id], for the object at [l]. *)
Definition has_status (h : list ScreenshotItem) (s : Status) (l : loc)
  : Prop := status <$> h !! l = Some s.

Definition has_id (h : list ScreenshotItem) (id : string) (l : loc)
  : Prop := item_id <$> h !! l = Some id.

#[global] Instance has_status_dec h s l : Decision (has_status h s l).
Proof. unfold has_status. apply _. Defined.

#[global] Instance has_id_dec h id l : Decision (has_id h id l).
Proof. unfold has_id. apply _. Defined.

(** [await this.processWithAI(nextItem.path)]: the call is made and the
    function is suspended until the environment settles the pipeline. *)
Definition await_pipeline (nextItem : loc) : M unit :=
  let! p := path_of nextItem in
  modify (λ w,
    with_awaiting (awaiting w ++ [nextItem])
      (with_solverCalls (solverCalls w ++ [(nextItem, p)]) w)).

(** [processNext], up to its suspension. *)
Definition processNext : M unit :=
  let! w := gets (λ w, w) in
  if decide (maxConcurrent (config w) ≤ Z.of_nat (size (processingQueue w)))%Z
  then ret tt
  else
    match list_find (has_status (heap w) Pending) (queue w) with
    | None => ret tt
    | Some (_, nextItem) =>
        let! id := id_of nextItem in
        modify (λ w, with_processingQueue ({[id]} ∪ processingQueue w) w);;;
        assign (with_status Processing) nextItem;;;
        emit "itemProcessing" nextItem;;;
        await_pipeline nextItem
    end.

(** How the two awaited calls end: both fulfilled, with the problem statement
    of the first and [solution.solution?.code] of the second, or one of them
    rejected (either rejection lands in the same [catch]). *)
Inductive Outcome :=
  | Fulfilled (problem_statement : string) (code : option string)
  | Rejected (message : string).

(** The rest of the [try] block. *)
Definition processNext_try (nextItem : loc) (problem_statement : string)
    (code : option string) : M unit :=
  assign (with_status Completed) nextItem;;;
  assign (with_metadata
            {| problemStatement := Some problem_statement;
               solution := Some (default "" code);
               errorMessage := None |}) nextItem;;;
  emit "itemCompleted" nextItem.

(** The [catch] block. *)
Definition processNext_catch (nextItem : loc) (message : string) : M unit :=
  let! id := id_of nextItem in
  let! retryCount := gets (λ w, default 0%Z (retryCounts w !! id)) in
  let! cfg := gets config in
  if decide (retryCount < retryAttempts cfg)%Z then
    modify (λ w,
      with_retryCounts (<[id := (retryCount + 1)%Z]> (retryCounts w)) w);;;
    assign (with_status Pending) nextItem;;;
    modify (λ w, with_processingQueue (processingQueue w ∖ {[id]}) w);;;
    modify (λ w, with_timers (timers w ++ [retryDelay cfg]) w)
    (* return; *)
  else
    assign (with_status Error) nextItem;;;
    assign (with_metadata
              {| problemStatement := None; solution := None;
                 errorMessage := Some message |}) nextItem;;;
    emit "itemError" nextItem.

(** The two deletions of the [finally] block, which runs after the [try]
    block, after the [catch] block, and after the [return] inside it. *)
Definition processNext_release (nextItem : loc) : M unit :=
  let! id := id_of nextItem in
  modify (λ w, with_processingQueue (processingQueue w ∖ {[id]}) w);;;
  modify (λ w, with_retryCounts (delete id (retryCounts w)) w).

(** [processNext] from its suspension to the deletions of [finally]. *)
Definition processNext_settle (nextItem : loc) (o : Outcome) : M unit :=
  match o with
  | Fulfilled problem_statement code =>
      processNext_try nextItem problem_statement code
  | Rejected message => processNext_catch nextItem message
  end;;;
  processNext_release nextItem.

(** [if (this.config.autoProcess) this.processNext()] *)
Definition auto_processNext : M unit :=
  let! cfg := gets config in
  if autoProcess cfg then processNext else ret tt.

(** [processNext] from its suspension to its end. *)
Definition processNext_resume (nextItem : loc) (o : Outcome) : M unit :=
  processNext_settle nextItem o;;;
  auto_processNext.

(** [`screenshot_${Date.now()}_${Math.random().toString(36).substr(2, 9)}`];
    the clock and the random digits are inputs. *)
Definition generateId (now : Z) (rnd : string) : string :=
  "screenshot_" +:+ pretty now +:+ "_" +:+ rnd.

(** [addScreenshot]; it has no [await], so it runs in one piece. *)
Definition addScreenshot (path preview : string) (now : Z) (rnd : string)
    (now' : Z) : M string :=
  let id := generateId now rnd in
  let! item := alloc {| item_id := id; path := path; preview := preview;
                        status := Pending; timestamp := now';
                        metadata := None |} in
  modify (λ w, with_queue (queue w ++ [item]) w);;;
  emit "itemAdded" item;;;
  auto_processNext;;;
  ret id.

Definition removeScreenshot (id : string) : M bool :=
  let! w := gets (λ w, w) in
  match list_find (has_id (heap w) id) (queue w) with
  | None => ret false
  | Some (index, item) =>
      modify (λ w, with_queue (delete index (queue w)) w);;;
      modify (λ w, with_processingQueue (processingQueue w ∖ {[id]}) w);;;
      modify (λ w, with_retryCounts (delete id (retryCounts w)) w);;;
      emit "itemRemoved" item;;;
      ret true
  end.

(** [[...this.queue]]: a new array of the same references. *)
Definition getQueue : M (list loc) := gets queue.

Definition getProcessingCount : M nat := gets (λ w, size (processingQueue w)).

(** [stats[item.status]++] *)
Definition count (s : Status) (st : QueueStats) : QueueStats :=
  match s with
  | Pending =>
      {| total := total st; pending := S (pending st);
         processing := processing st; completed := completed st;
         error := error st |}
  | Processing =>
      {| total := total st; pending := pending st;
         processing := S (processing st); completed := completed st;
         error := error st |}
  | Completed =>
      {| total := total st; pending := pending st;
         processing := processing st; completed := S (completed st);
         error := error st |}
  | Error =>
      {| total := total st; pending := pending st;
         processing := processing st; completed := completed st;
         error := S (error st) |}
  end.

Definition count_item (h : list ScreenshotItem) (st : QueueStats) (l : loc)
  : QueueStats :=
  from_option (λ it, count (status it) st) st (h !! l).

Definition getQueueStats : M QueueStats :=
  let! q := gets queue in
  let! h := gets heap in
  ret (foldl (count_item h)
         {| total := length q; pending := 0; processing := 0;
            completed := 0; error := 0 |} q).

Definition clearQueue : M unit :=
  modify (with_queue []);;;
  modify (with_processingQueue ∅);;;
  modify (with_retryCounts ∅).

Definition updateConfig (newConfig : PartialConfig) : M unit :=
  modify (λ w, with_config (merge_config (config w) newConfig) w).

(** ** Executions *)

(** What can happen to a manager: a call of one of its methods, a timer set
    by a retry firing, or the pipeline of a suspended [processNext]
    settling. *)
Inductive Action :=
  | AddScreenshot (path preview : string) (now : Z) (rnd : string) (now' : Z)
  | ProcessNext
  | Settle (nextItem : loc) (o : Outcome)
  | TimerFires
  | RemoveScreenshot (id : string)
  | ClearQueue
  | UpdateConfig (newConfig : PartialConfig)
  | GetQueueStats
  | On (event : string) (callback : Listener)
  | Off (event : string) (callback : Listener).

(** One suspended continuation of [nextItem] leaves [awaiting]. *)
Fixpoint take (nextItem : loc) (ls : list loc) : option (list loc) :=
  match ls with
  | [] => None
  | l :: ls' =>
      if decide (l = nextItem) then Some ls'
      else cons l <$> take nextItem ls'
  end.

Definition exec (a : Action) (w : World) : World :=
  match a with
  | AddScreenshot path preview now rnd now' =>
      (addScreenshot path preview now rnd now' w).2
  | ProcessNext => (processNext w).2
  | Settle nextItem o =>
      match take nextItem (awaiting w) with
      | Some rest => (processNext_resume nextItem o (with_awaiting rest w)).2
      | None => w
      end
  | TimerFires =>
      match timers w with
      | _ :: rest => (processNext (with_timers rest w)).2
      | [] => w
      end
  | RemoveScreenshot id => (removeScreenshot id w).2
  | ClearQueue => (clearQueue w).2
  | UpdateConfig newConfig => (updateConfig newConfig w).2
  | GetQueueStats => (getQueueStats w).2
  | On event callback => (on event callback w).2
  | Off event callback => (off event callback w).2
  end.

Definition run (acts : list Action) (w : World) : World :=
  foldl (λ w a, exec a w) w acts.

(** The worlds a manager built with [cfg] can be in. *)
Definition reachable (cfg : PartialConfig) (w : World) : Prop :=
  ∃ acts, w = run acts (new_manager cfg).

(** * Vocabulary of the properties *)

(** Unfolds the methods down to functions on worlds. *)
Ltac js :=
  unfold processNext_resume, auto_processNext, processNext_settle,
    processNext_release, processNext_try, processNext_catch, processNext,
    await_pipeline, addScreenshot, removeScreenshot, clearQueue, updateConfig,
    getQueueStats, on, off, emit, alloc, assign, id_of, path_of,
    bind, ret, gets, modify in *; simpl in *.

(** The bound on the in-flight set. *)
Definition cap_ok (w : World) : Prop :=
  (Z.of_nat (size (processingQueue w)) ≤ maxConcurrent (config w))%Z.

(** The queue holds distinct, allocated objects, and no retry count outlives
    the [processNext] that wrote it. *)
Record wf (w : World) : Prop := {
  wf_nodup : NoDup (queue w);
  wf_queue : Forall (λ l, l < length (heap w)) (queue w);
  wf_retry : retryCounts w = ∅;
}.

(** An [updateConfig] that leaves [maxConcurrent] at or above the number of
    ids in flight; every other action qualifies. *)
Definition keeps_cap (a : Action) (w : World) : Prop :=
  match a with
  | UpdateConfig newConfig =>
      match maxConcurrent' newConfig with
      | Some m => (Z.of_nat (size (processingQueue w)) ≤ m)%Z
      | None => True
      end
  | _ => True
  end.

(** A sequence of actions, started in [w], all of whose [updateConfig]s do
    so. *)
Fixpoint keeps_cap_along (acts : list Action) (w : World) : Prop :=
  match acts with
  | [] => True
  | a :: acts' => keeps_cap a w ∧ keeps_cap_along acts' (exec a w)
  end.

(** [{ maxConcurrent, autoProcess, retryAttempts, retryDelay }], all given. *)
Definition config_of (max : Z) (auto : bool) (retries delay : Z)
  : PartialConfig :=
  {| maxConcurrent' := Some max; autoProcess' := Some auto;
     retryAttempts' := Some retries; retryDelay' := Some delay |}.

(** [{ maxConcurrent }] *)
Definition lower_cap_to (max : Z) : PartialConfig :=
  {| maxConcurrent' := Some max; autoProcess' := None;
     retryAttempts' := None; retryDelay' := None |}.

(** Two items submitted to an auto-processing manager with two slots: both
    are in flight. *)
Definition two_in_flight : list Action :=
  [AddScreenshot "/a.png" "a" 1 "a" 1; AddScreenshot "/b.png" "b" 2 "b" 2].

(** The number of queued items with a given status. *)
Definition tally (h : list ScreenshotItem) (s : Status) (q : list loc) : nat :=
  length (filter (has_status h s) q).

(** The metadata written by the [try] block and by the [catch] block. *)
Definition completed_metadata (problem_statement : string)
    (code : option string) : Metadata :=
  {| problemStatement := Some problem_statement;
     solution := Some (default "" code); errorMessage := None |}.

Definition error_metadata (message : string) : Metadata :=
  {| problemStatement := None; solution := None;
     errorMessage := Some message |}.

(** The callbacks registered for an event, in registration order. *)
Definition listeners (w : World) (event : string) : list Listener :=
  default [] (events w !! event).

(** No registered callback assigns to the [id] of the object it is handed. *)
Definition keep_ids (w : World) : Prop :=
  ∀ event cb it, cb ∈ listeners w event → item_id (call cb it) = item_id it.

(** Scenario 2 of the specification: no auto-processing, [retryAttempts = 2],
    [retryDelay = 50], one item, and a solver that always fails. *)
Definition failing_config : PartialConfig := config_of 2 false 2 50.

(** One submission, then an explicit [processNext]. *)
Definition submit_and_dispatch : list Action :=
  [AddScreenshot "/shot.png" "preview" 1 "k3x9" 1; ProcessNext].

(** The pipeline of the item rejects and the retry timer fires. *)
Definition failed_attempt : list Action :=
  [Settle 0 (Rejected "net-error"); TimerFires].

(** [n] such failures in a row. *)
Fixpoint failed_attempts (n : nat) : list Action :=
  match n with
  | 0 => []
  | S n' => failed_attempts n' ++ failed_attempt
  end.

(** The world after [n] failed attempts, the next attempt being in flight. *)
Definition after_failures (n : nat) : World :=
  run (submit_and_dispatch ++ failed_attempts n) (new_manager failing_config).

(** The same world, written out. *)
Definition retrying (n : nat) : World :=
  {| queue := [0];
     processingQueue := {["screenshot_1_k3x9"]};
     config := merge_config default_config failing_config;
     events := ∅;
     retryCounts := ∅;
     heap := [{| item_id := "screenshot_1_k3x9"; path := "/shot.png";
                 preview := "preview"; status := Processing;
                 timestamp := 1; metadata := None |}];
     emitted := [("itemAdded", 0); ("itemProcessing", 0)]
                ++ replicate n ("itemProcessing", 0);
     solverCalls := [(0, "/shot.png")] ++ replicate n (0, "/shot.png");
     awaiting := [0];
     timers := [] |}.

(** [emit event l] between [w] and [w']: the event is recorded, and the
    object at [l], which was [before], is what the callbacks registered for
    [event] have made of it. *)
Definition handed_over (event : string) (l : loc) (before : ScreenshotItem)
    (w w' : World) : Prop :=
  heap w' !! l = Some (deliver (listeners w event) before) ∧
  emitted w' = emitted w ++ [(event, l)].

(** A listener that marks whatever it receives as completed. *)
Definition mark_completed : Listener :=
  {| handle := 1; call := with_status Completed |}.

(** One submission. *)
Definition submit_one : list Action :=
  [AddScreenshot "/shot.png" "preview" 1 "k3x9" 1].

(** ** Vocabulary of the further properties *)

(** The objects for which a given event was emitted, oldest first. *)
Definition emitted_for (event : string) (tr : list (string * loc))
  : list loc :=
  (filter (λ e, e.1 = event) tr).*2.

(** [itemCompleted] and [itemError]. *)
Definition terminal (event : string) : Prop :=
  event = "itemCompleted" ∨ event = "itemError".

(** In a trace of emitted events, every event other than [itemAdded] comes
    after the [itemAdded] of its item, and every terminal event after an
    [itemProcessing] of its item. *)
Definition in_lifecycle_order (tr : list (string * loc)) : Prop :=
  ∀ i event l, tr !! i = Some (event, l) →
    (event ≠ "itemAdded" →
     ∃ j, j < i ∧ tr !! j = Some ("itemAdded", l)) ∧
    (terminal event →
     ∃ j, j < i ∧ tr !! j = Some ("itemProcessing", l)).

(** What the manager has emitted accounts for what it holds and for what it
    has asked of the solver. *)
Record accounted (w : World) : Prop := {
  acc_queue : ∀ l, l ∈ queue w → ("itemAdded", l) ∈ emitted w;
  acc_awaiting : ∀ l, l ∈ awaiting w →
    ("itemAdded", l) ∈ emitted w ∧ ("itemProcessing", l) ∈ emitted w;
  acc_order : in_lifecycle_order (emitted w);
  acc_calls : (solverCalls w).*1 = emitted_for "itemProcessing" (emitted w);
}.

(** No callback registered for [event] assigns to the [status] of the object
    it is handed. *)
Definition keep_status (w : World) (event : string) : Prop :=
  ∀ cb it, cb ∈ listeners w event → status (call cb it) = status it.

(** A day in the life of a manager with two slots: two submissions, the
    first pipeline fulfilled, the second rejected and then removed, a third
    submission. *)
Definition busy_day : list Action :=
  two_in_flight ++
  [Settle 0 (Fulfilled "sum" (Some "a + b")); Settle 1 (Rejected "timeout");
   RemoveScreenshot "screenshot_2_b"; AddScreenshot "/c.png" "c" 3 "c" 3].

(** [{ ...p, ...q }] for two partial configurations. *)
Definition overlay (p q : PartialConfig) : PartialConfig :=
  {| maxConcurrent' := from_option Some (maxConcurrent' p) (maxConcurrent' q);
     autoProcess' := from_option Some (autoProcess' p) (autoProcess' q);
     retryAttempts' := from_option Some (retryAttempts' p) (retryAttempts' q);
     retryDelay' := from_option Some (retryDelay' p) (retryDelay' q) |}.

(** A listener that stamps a preview on whatever it receives. *)
Definition stamp (n : nat) (text : string) : Listener :=
  {| handle := n;
     call := λ it,
       {| item_id := item_id it; path := path it; preview := text;
          status := status it; timestamp := timestamp it;
          metadata := metadata it |} |}.

(** The object [addScreenshot] creates. *)
Definition new_item (p pv : string) (now : Z) (rnd : string) (now' : Z)
  : ScreenshotItem :=
  {| item_id := generateId now rnd; path := p; preview := pv;
     status := Pending; timestamp := now'; metadata := None |}.

(** The world when [addScreenshot] has emitted [itemAdded] and is about to
    look at [autoProcess]. *)
Definition enqueued (p pv : string) (now : Z) (rnd : string) (now' : Z)
    (w : World) : World :=
  (emit "itemAdded" (length (heap w))
     (with_queue (queue w ++ [length (heap w)])
        (with_heap (heap w ++ [new_item p pv now rnd now']) w))).2.

(** A string without the character [_]. *)
Fixpoint no_underscore (s : string) : Prop :=
  match s with
  | EmptyString => True
  | String c s' => c ≠ "_"%char ∧ no_underscore s'
  end.

(** ** Vocabulary of retry exhaustion *)









(** * Properties *)

(** ** Invariants of the manager *)

Lemma size_add_le (x : string) (X : gset string) :
  size ({[x]} ∪ X) ≤ S (size X).
Proof.
  destruct (decide (x ∈ X)) as [Hx|Hx].
  - rewrite (subseteq_union_1_L {[x]} X); [lia|].
    by apply singleton_subseteq_l.
  - rewrite size_union, size_singleton; [lia|].
    by apply disjoint_singleton_l.
Qed.

Lemma size_remove_le (x : string) (X : gset string) :
  size (X ∖ {[x]}) ≤ size X.
Proof. apply subseteq_size, subseteq_difference_l. reflexivity. Qed.

(** Assigning to the status or the metadata leaves the id alone. *)
Lemma id_alter (f : ScreenshotItem → ScreenshotItem)
    (h : list ScreenshotItem) (l l' : loc) :
  (∀ it, item_id (f it) = item_id it) →
  from_option item_id "" (alter f l h !! l')
  = from_option item_id "" (h !! l').
Proof.
  intros Hf. destruct (decide (l = l')) as [->|Hne];
    [rewrite list_lookup_alter_eq|by rewrite list_lookup_alter_ne].
  destruct (h !! l') as [it|]; simpl; [apply Hf|done].
Qed.

(** *** What each piece of [processNext] leaves alone *)

Lemma processNext_frame (w : World) :
  let w' := (processNext w).2 in
  queue w' = queue w ∧ length (heap w') = length (heap w) ∧
  retryCounts w' = retryCounts w ∧ config w' = config w ∧
  events w' = events w.
Proof.
  js. case_decide; [done|].
  destruct (list_find _ _) as [[i l]|]; [|done]. simpl.
  by rewrite !length_alter.
Qed.

Lemma processNext_cap (w : World) : cap_ok w → cap_ok (processNext w).2.
Proof.
  unfold cap_ok. js. case_decide; [done|].
  destruct (list_find _ _) as [[i l]|]; [|done]. simpl. intros _.
  pose proof (size_add_le (from_option item_id "" (heap w !! l))
                (processingQueue w)). lia.
Qed.

Lemma auto_processNext_frame (w : World) :
  let w' := (auto_processNext w).2 in
  queue w' = queue w ∧ length (heap w') = length (heap w) ∧
  retryCounts w' = retryCounts w ∧ config w' = config w ∧
  events w' = events w.
Proof.
  unfold auto_processNext, bind, gets, ret. simpl.
  destruct (autoProcess (config w)); [apply processNext_frame|done].
Qed.

Lemma auto_processNext_cap (w : World) :
  cap_ok w → cap_ok (auto_processNext w).2.
Proof.
  unfold auto_processNext, bind, gets, ret. simpl.
  destruct (autoProcess (config w)); [apply processNext_cap|done].
Qed.

Lemma settle_frame (nextItem : loc) (o : Outcome) (w : World) :
  let w' := (processNext_settle nextItem o w).2 in
  queue w' = queue w ∧ length (heap w') = length (heap w) ∧
  config w' = config w ∧ events w' = events w ∧
  (retryCounts w = ∅ → retryCounts w' = ∅).
Proof.
  destruct o as [ps code|msg]; js.
  - rewrite !length_alter. repeat split; try done.
    intros ->. apply delete_empty.
  - case_decide; simpl; rewrite !length_alter; repeat split; try done.
    + intros ->. rewrite id_alter by done.
      by rewrite delete_insert_eq, delete_empty.
    + intros ->. apply delete_empty.
Qed.

Lemma settle_cap (nextItem : loc) (o : Outcome) (w : World) :
  cap_ok w → cap_ok (processNext_settle nextItem o w).2.
Proof.
  unfold cap_ok. destruct o as [ps code|msg]; js.
  - intros. etrans; [|done]. apply inj_le, size_remove_le.
  - case_decide; simpl; intros.
    + etrans; [|done]. apply inj_le. etrans; apply size_remove_le.
    + etrans; [|done]. apply inj_le, size_remove_le.
Qed.

Lemma resume_unfold (nextItem : loc) (o : Outcome) (w : World) :
  processNext_resume nextItem o w
  = auto_processNext (processNext_settle nextItem o w).2.
Proof.
  unfold processNext_resume, bind.
  by destruct (processNext_settle nextItem o w) as [[] w'].
Qed.

Lemma resume_frame (nextItem : loc) (o : Outcome) (w : World) :
  let w' := (processNext_resume nextItem o w).2 in
  queue w' = queue w ∧ length (heap w') = length (heap w) ∧
  config w' = config w ∧ events w' = events w ∧
  (retryCounts w = ∅ → retryCounts w' = ∅).
Proof.
  simpl. rewrite resume_unfold.
  destruct (settle_frame nextItem o w) as (Hq & Hh & Hc & He & Hr).
  destruct (auto_processNext_frame (processNext_settle nextItem o w).2)
    as (Hq' & Hh' & Hr' & Hc' & He').
  rewrite Hq', Hh', Hr', Hc', He'. auto.
Qed.

Lemma resume_cap (nextItem : loc) (o : Outcome) (w : World) :
  cap_ok w → cap_ok (processNext_resume nextItem o w).2.
Proof. rewrite resume_unfold. intros. by apply auto_processNext_cap, settle_cap. Qed.

(** *** The other methods *)

Lemma addScreenshot_unfold path preview now rnd now' (w : World) :
  (addScreenshot path preview now rnd now' w).2
  = (auto_processNext
       (emit "itemAdded" (length (heap w))
          (with_queue (queue w ++ [length (heap w)])
             (with_heap
                (heap w ++ [{| item_id := generateId now rnd; path := path;
                               preview := preview; status := Pending;
                               timestamp := now'; metadata := None |}])
                w))).2).2.
Proof.
  unfold addScreenshot, bind, alloc, modify, ret. simpl.
  by destruct (auto_processNext _) as [[] w'].
Qed.

Lemma addScreenshot_frame path preview now rnd now' (w : World) :
  let w' := (addScreenshot path preview now rnd now' w).2 in
  queue w' = queue w ++ [length (heap w)] ∧
  length (heap w') = S (length (heap w)) ∧
  retryCounts w' = retryCounts w ∧ config w' = config w.
Proof.
  simpl. rewrite addScreenshot_unfold.
  match goal with |- context [auto_processNext ?w0] =>
    destruct (auto_processNext_frame w0) as (-> & -> & -> & -> & _) end.
  js. rewrite length_alter, length_app. simpl. repeat split; lia.
Qed.

Lemma addScreenshot_cap path preview now rnd now' (w : World) :
  cap_ok w → cap_ok (addScreenshot path preview now rnd now' w).2.
Proof. rewrite addScreenshot_unfold. intros. by apply auto_processNext_cap. Qed.

Lemma removeScreenshot_cap (id : string) (w : World) :
  cap_ok w → cap_ok (removeScreenshot id w).2.
Proof.
  unfold cap_ok. js. destruct (list_find _ _) as [[i l]|]; [simpl|done].
  intros. etrans; [|done]. apply inj_le, size_remove_le.
Qed.

Lemma removeScreenshot_wf (id : string) (w : World) :
  wf w → wf (removeScreenshot id w).2.
Proof.
  intros [Hnd Hq Hr]. js. destruct (list_find _ _) as [[i l]|]; [simpl|done].
  split; simpl.
  - eapply sublist_NoDup; [done|apply sublist_delete].
  - rewrite length_alter. by apply Forall_delete.
  - rewrite Hr. apply delete_empty.
Qed.

(** *** Every world the manager can be in is well formed *)

Lemma new_manager_wf (cfg : PartialConfig) : wf (new_manager cfg).
Proof. split; simpl; [constructor|constructor|done]. Qed.

Lemma exec_wf (a : Action) (w : World) : wf w → wf (exec a w).
Proof.
  intros Hw.
  destruct a as [p pv now rnd now'| |nextItem o| |id| |newConfig| |event cb
                |event cb]; simpl.
  - destruct Hw as [Hnd Hq Hr].
    destruct (addScreenshot_frame p pv now rnd now' w)
      as (Hq' & Hh' & Hr' & _).
    split; [rewrite Hq'|rewrite Hq', Hh'|by rewrite Hr'].
    + apply NoDup_app. split_and!; [done| |apply NoDup_singleton].
      intros l Hl ->%list_elem_of_singleton.
      rewrite Forall_forall in Hq. specialize (Hq _ Hl). lia.
    + apply Forall_app. split; [|by repeat constructor].
      eapply Forall_impl; [done|]. simpl. lia.
  - destruct Hw as [Hnd Hq Hr].
    destruct (processNext_frame w) as (Hq' & Hh' & Hr' & _).
    split; [by rewrite Hq'|by rewrite Hq', Hh'|by rewrite Hr'].
  - destruct (take nextItem (awaiting w)) as [rest|]; [|done].
    destruct Hw as [Hnd Hq Hr].
    destruct (resume_frame nextItem o (with_awaiting rest w))
      as (Hq' & Hh' & _ & _ & Hr').
    split; [by rewrite Hq'|by rewrite Hq', Hh'|by apply Hr'].
  - destruct (timers w) as [|d rest]; [done|].
    destruct Hw as [Hnd Hq Hr].
    destruct (processNext_frame (with_timers rest w)) as (Hq' & Hh' & Hr' & _).
    split; [by rewrite Hq'|by rewrite Hq', Hh'|by rewrite Hr'].
  - by apply removeScreenshot_wf.
  - split; simpl; [constructor|constructor|done].
  - by destruct Hw.
  - by destruct Hw.
  - by destruct Hw.
  - destruct Hw. js. by destruct (events w !! event).
Qed.

Lemma run_snoc (acts : list Action) (a : Action) (w : World) :
  run (acts ++ [a]) w = exec a (run acts w).
Proof. unfold run. by rewrite foldl_app. Qed.

Lemma reachable_ind' (cfg : PartialConfig) (P : World → Prop) :
  P (new_manager cfg) →
  (∀ a w, reachable cfg w → P w → P (exec a w)) →
  ∀ w, reachable cfg w → P w.
Proof.
  intros H0 Hstep w [acts ->].
  induction acts as [|a acts IH] using rev_ind; [done|].
  rewrite run_snoc. apply Hstep; [by exists acts|done].
Qed.

Lemma wf_reachable (cfg : PartialConfig) (w : World) :
  reachable cfg w → wf w.
Proof.
  apply reachable_ind'; [apply new_manager_wf|].
  intros a w' _. apply exec_wf.
Qed.

Lemma exec_cap (a : Action) (w : World) :
  cap_ok w → keeps_cap a w → cap_ok (exec a w).
Proof.
  intros Hw Ha.
  destruct a as [p pv now rnd now'| |nextItem o| |id| |newConfig| |event cb
                |event cb]; simpl.
  - by apply addScreenshot_cap.
  - by apply processNext_cap.
  - destruct (take nextItem (awaiting w)); [by apply resume_cap|done].
  - destruct (timers w); [done|by apply processNext_cap].
  - by apply removeScreenshot_cap.
  - unfold cap_ok in *.
    change (Z.of_nat (size (∅ : gset string)) ≤ maxConcurrent (config w))%Z.
    rewrite size_empty. lia.
  - unfold cap_ok in *. simpl in *.
    destruct (maxConcurrent' newConfig); simpl; lia.
  - done.
  - done.
  - unfold cap_ok in *. js. by destruct (events w !! event).
Qed.

Lemma run_cap (acts : list Action) (w : World) :
  cap_ok w → keeps_cap_along acts w → cap_ok (run acts w).
Proof.
  revert w. induction acts as [|a acts IH]; intros w Hw Hk; [done|].
  destruct Hk as [Ha Hk]. apply IH; [by apply exec_cap|done].
Qed.

(** C3, as stated, fails: with two items in flight under a cap of two,
    [updateConfig({maxConcurrent: 1})] leaves both in the in-flight set. *)
Lemma updateConfig_exceeds_cap :
  let w := run (two_in_flight ++ [UpdateConfig (lower_cap_to 1)])
             (new_manager (config_of 2 true 3 1000)) in
  size (processingQueue w) = 2 ∧ maxConcurrent (config w) = 1%Z ∧ ¬ cap_ok w.
Proof.
  unfold cap_ok. vm_compute. split_and!; [done|done|].
  intros H. by apply H.
Qed.

(** C3, amended: a manager built with a non-negative [maxConcurrent] never
    holds more ids in flight than the current [maxConcurrent], at the end of
    any sequence of actions (hence at every point of it) in which no
    [updateConfig] sets [maxConcurrent] below the number of ids then in
    flight. *)
Theorem in_flight_within_cap (cfg : PartialConfig) (acts : list Action) :
  (0 ≤ maxConcurrent (config (new_manager cfg)))%Z →
  keeps_cap_along acts (new_manager cfg) →
  cap_ok (run acts (new_manager cfg)).
Proof.
  intros H0 Hk. apply run_cap; [|done]. unfold cap_ok.
  change (processingQueue (new_manager cfg)) with (∅ : gset string).
  by rewrite size_empty.
Qed.

Lemma in_flight_within_cap_witness :
  cap_ok (run (two_in_flight ++ [UpdateConfig (lower_cap_to 5); ProcessNext])
            (new_manager (config_of 2 true 3 1000))).
Proof.
  apply in_flight_within_cap; [by vm_compute|].
  vm_compute. by split_and!.
Defined.

(** *** getQueueStats *)

Lemma tally_cons (h : list ScreenshotItem) (s : Status) (l : loc)
    (q : list loc) :
  tally h s (l :: q)
  = match h !! l with
    | Some it => if decide (status it = s) then 1 else 0
    | None => 0
    end + tally h s q.
Proof.
  unfold tally. rewrite filter_cons.
  destruct (decide (has_status h s l)) as [H|H]; unfold has_status in H;
    destruct (h !! l) as [it|]; simpl in *; try case_decide;
    simplify_eq; done.
Qed.

Lemma count_tally (h : list ScreenshotItem) (q : list loc) (st : QueueStats) :
  let st' := foldl (count_item h) st q in
  total st' = total st ∧
  pending st' = pending st + tally h Pending q ∧
  processing st' = processing st + tally h Processing q ∧
  completed st' = completed st + tally h Completed q ∧
  error st' = error st + tally h Error q.
Proof.
  revert st. induction q as [|l q IH]; intros st; simpl.
  { unfold tally. simpl. split_and!; lia. }
  destruct (IH (count_item h st l)) as (-> & -> & -> & -> & ->).
  rewrite !tally_cons. unfold count_item.
  destruct (h !! l) as [[i p pv [] t m]|]; simpl;
    repeat case_decide; simplify_eq; simpl; split_and!; lia.
Qed.

Lemma tally_total (h : list ScreenshotItem) (q : list loc) :
  Forall (λ l, l < length h) q →
  length q = tally h Pending q + tally h Processing q
             + tally h Completed q + tally h Error q.
Proof.
  induction 1 as [|l q Hl _ IH]; [done|].
  apply lookup_lt_is_Some in Hl as [[i p pv s t m] Hl].
  rewrite !tally_cons, Hl. simpl. rewrite IH.
  destruct s; repeat case_decide; simplify_eq; simpl; lia.
Qed.

(** C6: in every world the manager can be in, [getQueueStats] returns the
    length of the queue as [total] and, for each status, the number of queued
    items with that status; the four counts add up to [total]; and the call
    changes nothing. *)
Theorem getQueueStats_adds_up (cfg : PartialConfig) (w : World) :
  reachable cfg w →
  let st := (getQueueStats w).1 in
  total st = pending st + processing st + completed st + error st ∧
  total st = length (queue w) ∧
  pending st = tally (heap w) Pending (queue w) ∧
  processing st = tally (heap w) Processing (queue w) ∧
  completed st = tally (heap w) Completed (queue w) ∧
  error st = tally (heap w) Error (queue w) ∧
  (getQueueStats w).2 = w.
Proof.
  intros [_ Hq _]%wf_reachable. js.
  match goal with |- context [foldl _ ?st0 _] =>
    destruct (count_tally (heap w) (queue w) st0) as (-> & -> & -> & -> & ->)
  end.
  simpl. split_and!; try done. by apply tally_total.
Qed.

Lemma getQueueStats_adds_up_witness :
  let w := run (two_in_flight ++ [Settle 0 (Fulfilled "sum" None)])
             (new_manager (config_of 1 true 3 1000)) in
  let st := (getQueueStats w).1 in
  total st = pending st + processing st + completed st + error st ∧
  total st = 2 ∧ completed st = 1 ∧ processing st = 1 ∧
  (getQueueStats w).2 = w.
Proof.
  pose proof (getQueueStats_adds_up (config_of 1 true 3 1000) _
    (ex_intro _ (two_in_flight ++ [Settle 0 (Fulfilled "sum" None)])
       eq_refl)) as (H1 & H2 & _ & H4 & H5 & _ & H7).
  split_and!; [exact H1|rewrite H2|rewrite H5|rewrite H4|exact H7];
    by vm_compute.
Defined.

(** *** Operations that do nothing *)

(** C7: when no queued item is pending, or when the in-flight set already
    holds [maxConcurrent] ids or more, [processNext] returns with the world
    exactly as it found it: nothing is emitted and no field of the manager,
    no object and no pending continuation or timer has changed. *)
Theorem processNext_noop (w : World) :
  Forall (λ l, ¬ has_status (heap w) Pending l) (queue w)
  ∨ (maxConcurrent (config w) ≤ Z.of_nat (size (processingQueue w)))%Z →
  processNext w = (tt, w).
Proof.
  intros H. js. case_decide; [done|].
  destruct H as [H|H]; [|done].
  destruct (list_find _ _) as [[i l]|] eqn:E; [|done].
  apply list_find_Some in E as (Hl & Hp & _).
  rewrite Forall_lookup in H. by destruct (H _ _ Hl).
Qed.

Lemma processNext_noop_witness :
  let w := run two_in_flight (new_manager (config_of 1 true 3 1000)) in
  tally (heap w) Pending (queue w) = 1 ∧ processNext w = (tt, w).
Proof.
  split; [by vm_compute|].
  apply processNext_noop. right. by vm_compute.
Defined.

(** C8: [removeScreenshot] with an id that no queued item carries returns
    [false] and leaves the world exactly as it found it: nothing is emitted,
    and queue, in-flight set and retry counts are untouched. *)
Theorem removeScreenshot_absent (id : string) (w : World) :
  Forall (λ l, ¬ has_id (heap w) id l) (queue w) →
  removeScreenshot id w = (false, w).
Proof.
  intros H. js.
  destruct (list_find _ _) as [[i l]|] eqn:E; [|done].
  apply list_find_Some in E as (Hl & Hp & _).
  rewrite Forall_lookup in H. by destruct (H _ _ Hl).
Qed.

Lemma removeScreenshot_absent_witness :
  let w := run two_in_flight (new_manager (config_of 1 true 3 1000)) in
  removeScreenshot "non-existent-id" w = (false, w).
Proof.
  apply removeScreenshot_absent.
  apply (bool_decide_unpack _). by vm_compute.
Defined.


(** C9: [clearQueue] empties the queue, the in-flight set and the retry
    counts and emits nothing; objects, pending continuations and timers are
    left as they are. *)
Theorem clearQueue_silent (w : World) :
  let w' := (clearQueue w).2 in
  queue w' = [] ∧ processingQueue w' = ∅ ∧ retryCounts w' = ∅ ∧
  emitted w' = emitted w ∧ heap w' = heap w ∧ awaiting w' = awaiting w.
Proof. done. Qed.

(** *** The three ways a suspended [processNext] settles *)

Section settle.
Context (w : World) (l : loc) (it : ScreenshotItem).
Hypothesis Hl : heap w !! l = Some it.

Lemma settle_fulfilled (ps : string) (code : option string) :
  let it' := deliver (listeners w "itemCompleted")
               (with_metadata (completed_metadata ps code)
                  (with_status Completed it)) in
  let w' := (processNext_settle l (Fulfilled ps code) w).2 in
  heap w' !! l = Some it' ∧
  (∀ l', l' ≠ l → heap w' !! l' = heap w !! l') ∧
  emitted w' = emitted w ++ [("itemCompleted", l)] ∧
  processingQueue w' = processingQueue w ∖ {[item_id it']} ∧
  retryCounts w' = delete (item_id it') (retryCounts w).
Proof.
  js. rewrite !list_lookup_alter_eq, Hl. simpl. split_and!; try done.
  intros l' Hne. by rewrite !list_lookup_alter_ne.
Qed.

Lemma settle_retried (msg : string) :
  (default 0 (retryCounts w !! item_id it) < retryAttempts (config w))%Z →
  let w' := (processNext_settle l (Rejected msg) w).2 in
  heap w' !! l = Some (with_status Pending it) ∧
  (∀ l', l' ≠ l → heap w' !! l' = heap w !! l') ∧
  emitted w' = emitted w ∧
  processingQueue w' = (processingQueue w ∖ {[item_id it]}) ∖ {[item_id it]} ∧
  retryCounts w' = delete (item_id it) (retryCounts w) ∧
  timers w' = timers w ++ [retryDelay (config w)].
Proof.
  intros Hn. js. rewrite Hl in *. simpl in *.
  case_decide; [simpl|done].
  rewrite !list_lookup_alter_eq, Hl. simpl. split_and!; try done.
  - intros l' Hne. by rewrite !list_lookup_alter_ne.
  - by rewrite delete_insert_eq.
Qed.

Lemma settle_exhausted (msg : string) :
  ¬ (default 0 (retryCounts w !! item_id it) < retryAttempts (config w))%Z →
  let it' := deliver (listeners w "itemError")
               (with_metadata (error_metadata msg) (with_status Error it)) in
  let w' := (processNext_settle l (Rejected msg) w).2 in
  heap w' !! l = Some it' ∧
  (∀ l', l' ≠ l → heap w' !! l' = heap w !! l') ∧
  emitted w' = emitted w ++ [("itemError", l)] ∧
  processingQueue w' = processingQueue w ∖ {[item_id it']} ∧
  retryCounts w' = delete (item_id it') (retryCounts w).
Proof.
  intros Hn. js. rewrite Hl in *. simpl in *.
  case_decide; [done|simpl].
  rewrite !list_lookup_alter_eq, Hl. simpl. split_and!; try done.
  intros l' Hne. by rewrite !list_lookup_alter_ne.
Qed.

End settle.

Lemma deliver_id (cbs : list Listener) (it : ScreenshotItem) :
  (∀ cb x, cb ∈ cbs → item_id (call cb x) = item_id x) →
  item_id (deliver cbs it) = item_id it.
Proof.
  unfold deliver. revert it.
  induction cbs as [|cb cbs IH]; intros it Hcbs; simpl; [done|].
  rewrite IH; [apply Hcbs; left|]. intros cb' x Hcb'. apply Hcbs. by right.
Qed.

(** C10: however the pipeline of a dispatched item ends (both stages
    fulfilled, a rejection that is retried, a rejection that is final), when
    the [finally] block has run the id the item then carries (its own id,
    unless a listener has assigned another) is neither in the in-flight set
    nor a key of the retry counts, and it is still not a key of the retry
    counts when [processNext] has returned. *)
Theorem settled_item_is_released (w : World) (l : loc) (it : ScreenshotItem)
    (o : Outcome) :
  heap w !! l = Some it →
  let w1 := (processNext_settle l o w).2 in
  let w2 := (processNext_resume l o w).2 in
  ∃ it1, heap w1 !! l = Some it1 ∧
         (keep_ids w → item_id it1 = item_id it) ∧
         (item_id it1 ∉ processingQueue w1) ∧
         retryCounts w1 !! item_id it1 = None ∧
         retryCounts w2 !! item_id it1 = None.
Proof.
  intros Hl w1 w2.
  assert (retryCounts w2 = retryCounts w1) as ->.
  { unfold w2, w1. rewrite resume_unfold. apply auto_processNext_frame. }
  assert (∀ id (X : gset string), id ∉ X ∖ {[id]}) as Hout.
  { intros id X. apply not_elem_of_difference. right.
    by apply elem_of_singleton. }
  unfold w1. destruct o as [ps code|msg].
  - destruct (settle_fulfilled w l it Hl ps code) as (H1 & _ & _ & -> & ->).
    eexists. split; [done|]. rewrite lookup_delete_eq. split_and!; try done.
    intros Hk. rewrite deliver_id; [done|]. intros cb x. apply Hk.
  - destruct (decide (default 0 (retryCounts w !! item_id it)
                      < retryAttempts (config w))%Z) as [Hn|Hn].
    + destruct (settle_retried w l it Hl msg Hn) as (H1 & _ & _ & -> & -> & _).
      eexists. split; [done|]. simpl. rewrite lookup_delete_eq.
      by split_and!.
    + destruct (settle_exhausted w l it Hl msg Hn) as (H1 & _ & _ & -> & ->).
      eexists. split; [done|]. rewrite lookup_delete_eq. split_and!; try done.
      intros Hk. rewrite deliver_id; [done|]. intros cb x. apply Hk.
Qed.

Lemma settled_item_is_released_witness :
  let w := after_failures 0 in
  let w1 := (processNext_settle 0 (Fulfilled "two sum" None) w).2 in
  ∃ it1, heap w1 !! 0 = Some it1 ∧
         ("screenshot_1_k3x9" ∈ processingQueue w) ∧
         (item_id it1 ∉ processingQueue w1) ∧
         retryCounts w1 !! item_id it1 = None.
Proof.
  intros w w1.
  destruct (settled_item_is_released w 0
              {| item_id := "screenshot_1_k3x9"; path := "/shot.png";
                 preview := "preview"; status := Processing;
                 timestamp := 1; metadata := None |}
              (Fulfilled "two sum" None))
    as (it1 & H1 & _ & H2 & H3 & _); [by vm_compute|].
  exists it1. split_and!; [exact H1|by vm_compute|exact H2|exact H3].
Defined.

(** *** Retries *)

Lemma run_app (acts acts' : list Action) (w : World) :
  run (acts ++ acts') w = run acts' (run acts w).
Proof. unfold run. by rewrite foldl_app. Qed.

Lemma replicate_snoc {A} (n : nat) (x : A) :
  replicate n x ++ [x] = replicate (S n) x.
Proof. induction n as [|n IH]; simpl; [done|by rewrite IH]. Qed.

Lemma retrying_step (n : nat) :
  run failed_attempt (retrying n) = retrying (S n).
Proof.
  unfold retrying. rewrite <- !replicate_snoc.
  generalize (replicate n ("itemProcessing", 0)).
  generalize (replicate n (0, "/shot.png")).
  intros calls evs. vm_compute. reflexivity.
Qed.

Lemma after_failures_retrying (n : nat) : after_failures n = retrying n.
Proof.
  unfold after_failures. induction n as [|n IH].
  - vm_compute. reflexivity.
  - change (failed_attempts (S n))
      with (failed_attempts n ++ failed_attempt).
    rewrite (assoc_L (++)), run_app, IH. apply retrying_step.
Qed.

(** With [retryAttempts = 2] and a solver that always fails, the item is
    dispatched again after every failure: after [n] failed attempts, for any
    [n], it is [Processing] once more, the solver has been called [n + 1]
    times for it, and no [itemError] was ever emitted.  It never reaches
    [Error], after three calls or later. *)
Theorem failing_item_is_retried_forever (n : nat) :
  let w := after_failures n in
  retryAttempts (config w) = 2%Z ∧
  status <$> heap w !! 0 = Some Processing ∧
  length (filter (λ c, c.1 = 0) (solverCalls w)) = S n ∧
  (∀ l, ("itemError", l) ∉ emitted w).
Proof.
  simpl. rewrite after_failures_retrying. unfold retrying. simpl.
  split_and!; [done|done| |].
  - f_equal. induction n as [|n IH]; [done|].
    change (replicate (S n) (0, "/shot.png"))
      with ((0, "/shot.png") :: replicate n (0, "/shot.png")).
    rewrite filter_cons_True by done. simpl. by rewrite IH.
  - intros l. rewrite !not_elem_of_cons. split_and!; try done.
    intros [=]%elem_of_replicate_inv.
Qed.

(** C4 fails on the code in its last part.  When the pipeline of an item
    rejects while the item's count [n] is under [retryAttempts], the [catch]
    block does write [n + 1], sets the item back to [Pending] and emits
    nothing; but the [return] inside [catch] still runs the [finally] block,
    whose [retryCounts.delete] removes the entry just written: once the
    failure is handled the item has no retry count at all. *)
Theorem retry_count_is_dropped (w : World) (l : loc) (it : ScreenshotItem)
    (msg : string) :
  heap w !! l = Some it →
  (default 0 (retryCounts w !! item_id it) < retryAttempts (config w))%Z →
  let n := default 0%Z (retryCounts w !! item_id it) in
  let caught := (processNext_catch l msg w).2 in
  let w' := (processNext_settle l (Rejected msg) w).2 in
  retryCounts caught !! item_id it = Some (n + 1)%Z ∧
  heap w' !! l = Some (with_status Pending it) ∧
  emitted w' = emitted w ∧
  retryCounts w' !! item_id it = None.
Proof.
  intros Hl Hn. simpl.
  destruct (settle_retried w l it Hl msg Hn) as (-> & _ & -> & _ & -> & _).
  rewrite lookup_delete_eq. split_and!; try done.
  js. rewrite Hl in *. simpl in *. case_decide; [simpl|done].
  by rewrite lookup_insert_eq.
Qed.

Lemma retry_count_is_dropped_witness :
  let w := after_failures 0 in
  let w' := (processNext_settle 0 (Rejected "net-error") w).2 in
  status <$> heap w' !! 0 = Some Pending ∧
  retryCounts w' !! "screenshot_1_k3x9" = None.
Proof.
  intros w w'.
  destruct (retry_count_is_dropped w 0
              {| item_id := "screenshot_1_k3x9"; path := "/shot.png";
                 preview := "preview"; status := Processing;
                 timestamp := 1; metadata := None |} "net-error")
    as (_ & H2 & _ & H4); [by vm_compute|by vm_compute|].
  split; [|exact H4]. fold w' in H2. by rewrite H2.
Defined.

(** In a world the manager can be in, nothing of the above depends on how
    often the item has failed before: with [retryAttempts] positive, a
    rejection always puts the item back to [Pending] and emits nothing. *)
Lemma rejection_is_never_final (cfg : PartialConfig) (w : World) (l : loc)
    (it : ScreenshotItem) (msg : string) :
  reachable cfg w → heap w !! l = Some it →
  (0 < retryAttempts (config w))%Z →
  let w' := (processNext_settle l (Rejected msg) w).2 in
  heap w' !! l = Some (with_status Pending it) ∧ emitted w' = emitted w.
Proof.
  intros [_ _ Hr]%wf_reachable Hl Hn.
  assert (default 0 (retryCounts w !! item_id it)
          < retryAttempts (config w))%Z as Hn'.
  { by rewrite Hr, lookup_empty. }
  cbv zeta.
  by destruct (settle_retried w l it Hl msg Hn') as (-> & _ & -> & _).
Qed.

(** *** Removing an item whose pipeline is running *)

Lemma NoDup_delete_lookup (q : list loc) (i : nat) (l : loc) :
  NoDup q → q !! i = Some l → l ∉ delete i q.
Proof.
  intros Hq. revert i. induction Hq as [|x q Hx Hq IH]; intros i; [done|].
  destruct i as [|i]; simpl.
  - by intros [= <-].
  - intros Hl. apply not_elem_of_cons. split; [|by apply IH].
    intros ->. apply Hx. by eapply list_elem_of_lookup_2.
Qed.




(** *** What a listener is handed *)

(** C5, as stated, fails: the same submission leaves the queued item
    [Pending] when nobody listens and [Completed] when [mark_completed]
    listens to [itemAdded]. *)
Lemma listener_rewrites_queued_item :
  let quiet := run submit_one (new_manager failing_config) in
  let heard := run (On "itemAdded" mark_completed :: submit_one)
                 (new_manager failing_config) in
  queue quiet = [0] ∧ status <$> heap quiet !! 0 = Some Pending ∧
  queue heard = [0] ∧ status <$> heap heard !! 0 = Some Completed ∧
  pending (getQueueStats heard).1 = 0.
Proof. vm_compute. by split_and!. Qed.

(** C5, amended: every event carries the item object itself, not a copy.
    At each of the five places where the manager emits, the callbacks
    receive the object the manager is working on, and what they make of it
    is the state of that object afterwards: the object just put last in the
    queue ([itemAdded]), the queued object being dispatched
    ([itemProcessing]), the object whose pipeline has settled, which is the
    queue's own object whenever it is still queued, settling leaving the
    queue as it is ([itemCompleted], [itemError]), and the object just taken
    out of the queue ([itemRemoved]). *)
Theorem events_carry_the_object (w : World) :
  (* itemAdded *)
  (∀ p pv now rnd now',
     let new := {| item_id := generateId now rnd; path := p; preview := pv;
                   status := Pending; timestamp := now';
                   metadata := None |} in
     ∃ w1, handed_over "itemAdded" (length (heap w)) new w w1 ∧
           queue w1 = queue w ++ [length (heap w)] ∧
           (addScreenshot p pv now rnd now' w).2
           = (auto_processNext w1).2) ∧
  (* itemProcessing *)
  (∀ i l it,
     ¬ (maxConcurrent (config w) ≤ Z.of_nat (size (processingQueue w)))%Z →
     list_find (has_status (heap w) Pending) (queue w) = Some (i, l) →
     heap w !! l = Some it →
     handed_over "itemProcessing" l (with_status Processing it)
       w (processNext w).2 ∧
     queue w !! i = Some l ∧ queue (processNext w).2 = queue w) ∧
  (* itemCompleted *)
  (∀ l it ps code,
     heap w !! l = Some it →
     handed_over "itemCompleted" l
       (with_metadata (completed_metadata ps code) (with_status Completed it))
       w (processNext_settle l (Fulfilled ps code) w).2 ∧
     queue (processNext_settle l (Fulfilled ps code) w).2 = queue w) ∧
  (* itemError *)
  (∀ l it msg,
     heap w !! l = Some it →
     ¬ (default 0 (retryCounts w !! item_id it) < retryAttempts (config w))%Z →
     handed_over "itemError" l
       (with_metadata (error_metadata msg) (with_status Error it))
       w (processNext_settle l (Rejected msg) w).2 ∧
     queue (processNext_settle l (Rejected msg) w).2 = queue w) ∧
  (* itemRemoved *)
  (∀ id i l it,
     list_find (has_id (heap w) id) (queue w) = Some (i, l) →
     heap w !! l = Some it →
     handed_over "itemRemoved" l it w (removeScreenshot id w).2 ∧
     queue w !! i = Some l ∧
     queue (removeScreenshot id w).2 = delete i (queue w)).
Proof.
  unfold handed_over. split_and!.
  - intros p pv now rnd now'. eexists. split_and!;
      [| | |apply addScreenshot_unfold]; [|done|done]. js.
    rewrite list_lookup_alter_eq, lookup_app_r, Nat.sub_diag by done.
    done.
  - intros i l it Hfull Hfind Hl.
    destruct (processNext_frame w) as (Hq & _).
    split; [|split; [by apply list_find_Some in Hfind as (? & _)|done]].
    clear Hq. js. case_decide; [done|]. rewrite Hfind. simpl.
    by rewrite !list_lookup_alter_eq, Hl.
  - intros l it ps code Hl.
    destruct (settle_frame l (Fulfilled ps code) w) as (Hq & _).
    by destruct (settle_fulfilled w l it Hl ps code) as (-> & _ & -> & _).
  - intros l it msg Hl Hn.
    destruct (settle_frame l (Rejected msg) w) as (Hq & _).
    by destruct (settle_exhausted w l it Hl msg Hn) as (-> & _ & -> & _).
  - intros id i l it Hfind Hl. js. rewrite Hfind. simpl.
    rewrite list_lookup_alter_eq, Hl.
    by apply list_find_Some in Hfind as (? & _).
Qed.

Lemma events_carry_the_object_witness :
  let w := run [On "itemAdded" mark_completed] (new_manager failing_config) in
  ∃ w1, (addScreenshot "/shot.png" "preview" 1 "k3x9" 1 w).2
        = (auto_processNext w1).2 ∧
        queue w1 = [0] ∧ status <$> heap w1 !! 0 = Some Completed.
Proof.
  intros w.
  destruct (events_carry_the_object w) as (Hadded & _).
  destruct (Hadded "/shot.png" "preview" 1%Z "k3x9" 1%Z)
    as (w1 & [Hobj _] & Hq & Hrest).
  assert (length (heap w) = 0) as Hlen by by vm_compute.
  rewrite Hlen in Hobj, Hq.
  exists w1. split_and!; [exact Hrest|rewrite Hq|rewrite Hobj]; by vm_compute.
Defined.

(** * Further properties *)

(** ** What each method emits and asks of the solver *)

Lemma processNext_trace (w : World) :
  let w' := (processNext w).2 in
  queue w' = queue w ∧ timers w' = timers w ∧
  (emitted w' = emitted w ∧ solverCalls w' = solverCalls w ∧
   awaiting w' = awaiting w
   ∨ ∃ i l p, queue w !! i = Some l ∧
       emitted w' = emitted w ++ [("itemProcessing", l)] ∧
       solverCalls w' = solverCalls w ++ [(l, p)] ∧
       awaiting w' = awaiting w ++ [l]).
Proof.
  js. case_decide; [by split_and!; try left|].
  destruct (list_find _ _) as [[i l]|] eqn:E; [simpl|by split_and!; try left].
  apply list_find_Some in E as (Hi & _). split_and!; try done.
  right. by eexists i, l, _.
Qed.

Lemma auto_processNext_trace (w : World) :
  let w' := (auto_processNext w).2 in
  queue w' = queue w ∧ timers w' = timers w ∧
  (emitted w' = emitted w ∧ solverCalls w' = solverCalls w ∧
   awaiting w' = awaiting w
   ∨ ∃ i l p, queue w !! i = Some l ∧
       emitted w' = emitted w ++ [("itemProcessing", l)] ∧
       solverCalls w' = solverCalls w ++ [(l, p)] ∧
       awaiting w' = awaiting w ++ [l]).
Proof.
  unfold auto_processNext, bind, gets, ret. simpl.
  destruct (autoProcess (config w)); [apply processNext_trace|].
  by split_and!; try left.
Qed.

Lemma settle_trace (l : loc) (o : Outcome) (w : World) :
  let w' := (processNext_settle l o w).2 in
  queue w' = queue w ∧ awaiting w' = awaiting w ∧
  solverCalls w' = solverCalls w ∧
  (emitted w' = emitted w
   ∨ ∃ event, terminal event ∧ emitted w' = emitted w ++ [(event, l)]).
Proof.
  unfold terminal. destruct o as [ps code|msg]; js.
  - split_and!; try done. right. eauto.
  - case_decide; simpl; split_and!; try done; [by left|]. right. eauto.
Qed.

(** ** The emitted events account for the state *)

Lemma in_lifecycle_order_snoc (tr : list (string * loc)) (event : string)
    (l : loc) :
  in_lifecycle_order tr →
  (event ≠ "itemAdded" → ("itemAdded", l) ∈ tr) →
  (terminal event → ("itemProcessing", l) ∈ tr) →
  in_lifecycle_order (tr ++ [(event, l)]).
Proof.
  intros Htr Hadd Hproc i event' l' Hi.
  destruct (decide (i < length tr)) as [Hlt|Hge].
  - rewrite lookup_app_l in Hi by done.
    destruct (Htr _ _ _ Hi) as [H1 H2]. split.
    + intros Hne. destruct (H1 Hne) as (j & Hj & Hlook).
      exists j. split; [done|]. rewrite lookup_app_l; [done|lia].
    + intros Hterm. destruct (H2 Hterm) as (j & Hj & Hlook).
      exists j. split; [done|]. rewrite lookup_app_l; [done|lia].
  - rewrite lookup_app_r in Hi by lia.
    apply list_lookup_singleton_Some in Hi as [Hi [= <- <-]].
    assert (i = length tr) as -> by lia. split.
    + intros Hne. apply Hadd, list_elem_of_lookup in Hne as [j Hj].
      exists j. split; [by eapply lookup_lt_Some|].
      by apply lookup_app_l_Some.
    + intros Hterm. apply Hproc, list_elem_of_lookup in Hterm as [j Hj].
      exists j. split; [by eapply lookup_lt_Some|].
      by apply lookup_app_l_Some.
Qed.

Lemma emitted_for_snoc (event event' : string) (l : loc)
    (tr : list (string * loc)) :
  emitted_for event (tr ++ [(event', l)])
  = emitted_for event tr ++ (if decide (event' = event) then [l] else []).
Proof.
  unfold emitted_for. rewrite filter_app, fmap_app. f_equal.
  rewrite filter_cons, filter_nil. simpl. by case_decide.
Qed.

Lemma take_Some (l : loc) (ls rest : list loc) :
  take l ls = Some rest → l ∈ ls ∧ (∀ x, x ∈ rest → x ∈ ls).
Proof.
  revert rest. induction ls as [|x ls IH]; intros rest; simpl; [done|].
  case_decide as Hx.
  - intros [= <-]. subst. split; [left|]. intros y Hy. by right.
  - destruct (take l ls) as [rest'|]; simpl; [|done].
    intros [= <-]. destruct (IH rest' eq_refl) as [Hl Hrest].
    split; [by right|]. intros y [->|Hy]%elem_of_cons; [left|].
    right. by apply Hrest.
Qed.

Lemma accounted_ext (w w' : World) :
  queue w' = queue w → awaiting w' = awaiting w →
  emitted w' = emitted w → solverCalls w' = solverCalls w →
  accounted w → accounted w'.
Proof.
  intros Hq Ha He Hs [H1 H2 H3 H4].
  split; rewrite ?Hq, ?Ha, ?He, ?Hs; done.
Qed.

Lemma accounted_emit (w w' : World) (event : string) (l : loc) :
  accounted w →
  event ≠ "itemProcessing" →
  (event ≠ "itemAdded" → ("itemAdded", l) ∈ emitted w) →
  (terminal event → ("itemProcessing", l) ∈ emitted w) →
  (∀ l', l' ∈ queue w' → l' ∈ queue w ∨ event = "itemAdded" ∧ l' = l) →
  (∀ l', l' ∈ awaiting w' → l' ∈ awaiting w) →
  emitted w' = emitted w ++ [(event, l)] →
  solverCalls w' = solverCalls w →
  accounted w'.
Proof.
  intros [H1 H2 H3 H4] Hev Hadd Hproc Hq Ha He Hs.
  split; rewrite ?He, ?Hs.
  - intros l' [Hl'|[-> ->]]%Hq; apply elem_of_app; [left; auto|right; left].
  - intros l' Hl'. destruct (H2 l' (Ha l' Hl')) as [Ha1 Ha2].
    rewrite !elem_of_app. auto.
  - by apply in_lifecycle_order_snoc.
  - rewrite emitted_for_snoc, decide_False, (right_id_L [] (++)); done.
Qed.

Lemma processNext_accounted (w : World) :
  accounted w → accounted (processNext w).2.
Proof.
  intros Hw.
  destruct (processNext_trace w) as (Hq & _ & [(He & Hs & Ha)|Hd]).
  { by apply (accounted_ext w). }
  destruct Hd as (i & l & p & Hl & He & Hs & Ha).
  apply list_elem_of_lookup_2 in Hl. destruct Hw as [H1 H2 H3 H4].
  split; rewrite ?Hq, ?He, ?Hs, ?Ha.
  - intros l' Hl'. apply elem_of_app. left. auto.
  - intros l' [Hl' | ->%list_elem_of_singleton]%elem_of_app;
      rewrite !elem_of_app.
    + destruct (H2 l' Hl'). auto.
    + split; [left; auto|right; left].
  - apply in_lifecycle_order_snoc; [done|auto|].
    by intros [[=]|[=]].
  - rewrite emitted_for_snoc, decide_True, fmap_app by done.
    by rewrite H4.
Qed.

Lemma auto_processNext_accounted (w : World) :
  accounted w → accounted (auto_processNext w).2.
Proof.
  unfold auto_processNext, bind, gets, ret. simpl.
  destruct (autoProcess (config w)); [apply processNext_accounted|done].
Qed.

Lemma settle_accounted (l : loc) (o : Outcome) (w : World) :
  accounted w →
  ("itemAdded", l) ∈ emitted w → ("itemProcessing", l) ∈ emitted w →
  accounted (processNext_settle l o w).2.
Proof.
  intros Hw Hadd Hproc.
  destruct (settle_trace l o w) as (Hq & Ha & Hs & [He|(ev & Hev & He)]).
  { by apply (accounted_ext w). }
  eapply (accounted_emit w _ ev l); try done.
  - intros ->. by destruct Hev.
  - rewrite Hq. auto.
  - by rewrite Ha.
Qed.

Lemma exec_accounted (a : Action) (w : World) :
  accounted w → accounted (exec a w).
Proof.
  intros Hw.
  destruct a as [p pv now rnd now'| |nextItem o| |id| |newConfig| |event cb
                |event cb]; simpl.
  - rewrite addScreenshot_unfold. apply auto_processNext_accounted.
    eapply (accounted_emit w _ "itemAdded" (length (heap w))); try done.
    + by intros [[=]|[=]].
    + simpl. intros l' [Hl' | ->%list_elem_of_singleton]%elem_of_app; auto.
  - by apply processNext_accounted.
  - destruct (take nextItem (awaiting w)) as [rest|] eqn:E; [|done].
    apply take_Some in E as [Hl Hrest].
    destruct (acc_awaiting w Hw _ Hl) as [Hadd Hproc].
    rewrite resume_unfold.
    apply auto_processNext_accounted, settle_accounted;
      [|exact Hadd|exact Hproc].
    destruct Hw as [H1 H2 H3 H4]. split; simpl; auto.
  - destruct (timers w) as [|d rest]; [done|].
    apply processNext_accounted. by apply (accounted_ext w).
  - js. destruct (list_find _ _) as [[i l]|] eqn:E; [simpl|done].
    apply list_find_Some in E as (Hi%list_elem_of_lookup_2 & _).
    eapply (accounted_emit w _ "itemRemoved" l); try done.
    + intros _. by apply (acc_queue w Hw).
    + by intros [[=]|[=]].
    + simpl. intros l' Hl'%list_elem_of_delete_inv. auto.
  - destruct Hw as [H1 H2 H3 H4]. split; simpl; auto.
    intros l []%elem_of_nil.
  - by apply (accounted_ext w).
  - done.
  - by apply (accounted_ext w).
  - js. destruct (events w !! event); [by apply (accounted_ext w)|done].
Qed.

Lemma accounted_reachable (cfg : PartialConfig) (w : World) :
  reachable cfg w → accounted w.
Proof.
  apply reachable_ind'; [|intros a w' _; apply exec_accounted].
  split; simpl; [by intros l []%elem_of_nil|by intros l []%elem_of_nil| |done].
  by intros i event l.
Qed.

(** X1: in every world the manager can be in, the trace of emitted events is
    in lifecycle order: whatever is emitted for an item comes after the
    [itemAdded] of that item, and an [itemCompleted] or [itemError] comes
    after an [itemProcessing] of that item. *)
Theorem events_in_lifecycle_order (cfg : PartialConfig) (w : World) :
  reachable cfg w → in_lifecycle_order (emitted w).
Proof. intros Hw. by apply acc_order, (accounted_reachable cfg). Qed.

Lemma events_in_lifecycle_order_witness :
  let w := run busy_day (new_manager (config_of 2 true 3 1000)) in
  emitted w !! 2 = Some ("itemAdded", 1) ∧
  emitted w !! 4 = Some ("itemCompleted", 0) ∧
  in_lifecycle_order (emitted w).
Proof.
  split_and!; [by vm_compute|by vm_compute|].
  apply (events_in_lifecycle_order (config_of 2 true 3 1000)).
  by exists busy_day.
Defined.

(** X2: in every world the manager can be in, the solver has been called
    exactly once for every [itemProcessing] emitted, for the same item and
    in the same order. *)
Theorem solver_called_once_per_dispatch (cfg : PartialConfig) (w : World) :
  reachable cfg w →
  (solverCalls w).*1 = emitted_for "itemProcessing" (emitted w).
Proof. intros Hw. by apply acc_calls, (accounted_reachable cfg). Qed.

Lemma solver_called_once_per_dispatch_witness :
  let w := run busy_day (new_manager (config_of 2 true 3 1000)) in
  (solverCalls w).*1 = [0; 1; 1; 2] ∧
  (solverCalls w).*1 = emitted_for "itemProcessing" (emitted w).
Proof.
  split; [by vm_compute|].
  apply (solver_called_once_per_dispatch (config_of 2 true 3 1000)).
  by exists busy_day.
Defined.

(** X3: between any two steps of the manager the retry counts are empty:
    whatever [processNext] writes there on a failure is deleted again before
    it returns, and no other method writes there. *)
Theorem retry_counts_stay_empty (cfg : PartialConfig) (w : World) :
  reachable cfg w → retryCounts w = ∅.
Proof. intros Hw. by apply wf_retry, (wf_reachable cfg). Qed.

Lemma retry_counts_stay_empty_witness :
  retryCounts (run busy_day (new_manager (config_of 2 true 3 1000))) = ∅.
Proof.
  apply (retry_counts_stay_empty (config_of 2 true 3 1000)).
  by exists busy_day.
Defined.

(** ** Statistics along the life of an item *)

Lemma getQueueStats_tally (w : World) :
  let st := (getQueueStats w).1 in
  total st = length (queue w) ∧
  pending st = tally (heap w) Pending (queue w) ∧
  processing st = tally (heap w) Processing (queue w) ∧
  completed st = tally (heap w) Completed (queue w) ∧
  error st = tally (heap w) Error (queue w).
Proof.
  js.
  match goal with |- context [foldl _ ?st0 _] =>
    destruct (count_tally (heap w) (queue w) st0) as (-> & -> & -> & -> & ->)
  end.
  done.
Qed.

Lemma tally_split (h : list ScreenshotItem) (s : Status) (l : loc)
    (q : list loc) :
  tally h s (l :: q) = tally h s [l] + tally h s q.
Proof. rewrite !tally_cons. unfold tally. simpl. lia. Qed.

Lemma tally_one (h : list ScreenshotItem) (s : Status) (l : loc)
    (it : ScreenshotItem) :
  h !! l = Some it → tally h s [l] = if decide (status it = s) then 1 else 0.
Proof.
  intros Hl. rewrite tally_cons, Hl. unfold tally. simpl.
  apply Nat.add_0_r.
Qed.

Lemma tally_agree (h h' : list ScreenshotItem) (s : Status) (q : list loc) :
  (∀ l, l ∈ q → h' !! l = h !! l) → tally h' s q = tally h s q.
Proof.
  induction q as [|x q IH]; intros Hq; [done|].
  rewrite !tally_cons, Hq, IH; [done| |left].
  intros l Hl. apply Hq. by right.
Qed.

(** Changing one object of a queue without duplicates moves one unit of the
    tally. *)
Lemma tally_move (h h' : list ScreenshotItem) (s : Status) (l : loc)
    (q : list loc) :
  NoDup q → l ∈ q → (∀ l', l' ≠ l → h' !! l' = h !! l') →
  tally h' s q + tally h s [l] = tally h s q + tally h' s [l].
Proof.
  intros Hq Hl Hh.
  induction Hq as [|x q Hx Hq IH]; [by apply elem_of_nil in Hl|].
  rewrite (tally_split h s x q), (tally_split h' s x q).
  destruct (decide (x = l)) as [->|Hne].
  - rewrite (tally_agree h h' s q); [lia|].
    intros l' Hl'. apply Hh. by intros ->.
  - apply elem_of_cons in Hl as [->|Hl]; [done|]. specialize (IH Hl).
    assert (tally h' s [x] = tally h s [x]) as ->; [|lia].
    apply tally_agree. intros l' ->%list_elem_of_singleton. by apply Hh.
Qed.

Lemma deliver_status (cbs : list Listener) (it : ScreenshotItem) :
  (∀ cb x, cb ∈ cbs → status (call cb x) = status x) →
  status (deliver cbs it) = status it.
Proof.
  unfold deliver. revert it.
  induction cbs as [|cb cbs IH]; intros it Hcbs; simpl; [done|].
  rewrite IH; [apply Hcbs; left|]. intros cb' x Hcb'. apply Hcbs. by right.
Qed.

(** What a dispatching [processNext] does. *)
Lemma processNext_dispatch (w : World) (i : nat) (l : loc)
    (it : ScreenshotItem) :
  ¬ (maxConcurrent (config w) ≤ Z.of_nat (size (processingQueue w)))%Z →
  list_find (has_status (heap w) Pending) (queue w) = Some (i, l) →
  heap w !! l = Some it →
  let it' := deliver (listeners w "itemProcessing")
               (with_status Processing it) in
  let w' := (processNext w).2 in
  heap w' !! l = Some it' ∧
  (∀ l', l' ≠ l → heap w' !! l' = heap w !! l') ∧
  queue w' = queue w ∧
  processingQueue w' = {[item_id it]} ∪ processingQueue w ∧
  emitted w' = emitted w ++ [("itemProcessing", l)] ∧
  solverCalls w' = solverCalls w ++ [(l, path it')] ∧
  awaiting w' = awaiting w ++ [l] ∧
  retryCounts w' = retryCounts w ∧ config w' = config w ∧
  timers w' = timers w.
Proof.
  intros Hfull Hfind Hl. js. case_decide; [done|]. rewrite Hfind. simpl.
  rewrite !list_lookup_alter_eq, Hl. simpl. split_and!; try done.
  intros l' Hne. by rewrite !list_lookup_alter_ne.
Qed.

(** When a step changes one queued object and nothing else in the queue, one
    unit of the tally moves from the old status to the new one. *)
Lemma stats_move (w w' : World) (l : loc) (it it' : ScreenshotItem)
    (s : Status) :
  NoDup (queue w) → l ∈ queue w → queue w' = queue w →
  heap w !! l = Some it → heap w' !! l = Some it' →
  (∀ l', l' ≠ l → heap w' !! l' = heap w !! l') →
  tally (heap w') s (queue w') + (if decide (status it = s) then 1 else 0)
  = tally (heap w) s (queue w) + (if decide (status it' = s) then 1 else 0).
Proof.
  intros Hnd Hl -> Hit Hit' Hother.
  rewrite <- (tally_one _ s _ _ Hit), <- (tally_one _ s _ _ Hit').
  by apply tally_move.
Qed.

(** X4: when [processNext] dispatches an item whose [itemProcessing]
    listeners leave the status alone, the statistics move one item from
    [pending] to [processing] and change in nothing else. *)
Theorem dispatch_moves_pending_to_processing (cfg : PartialConfig)
    (w : World) (i : nat) (l : loc) :
  reachable cfg w →
  ¬ (maxConcurrent (config w) ≤ Z.of_nat (size (processingQueue w)))%Z →
  list_find (has_status (heap w) Pending) (queue w) = Some (i, l) →
  keep_status w "itemProcessing" →
  let st := (getQueueStats w).1 in
  let st' := (getQueueStats (processNext w).2).1 in
  pending st = S (pending st') ∧ processing st' = S (processing st) ∧
  completed st' = completed st ∧ error st' = error st ∧
  total st' = total st.
Proof.
  intros [Hnd _ _]%wf_reachable Hfull Hfind Hkeep.
  pose proof Hfind as (Hi & Hp & _)%list_find_Some.
  unfold has_status in Hp.
  destruct (heap w !! l) as [it|] eqn:Hl; [|done].
  simpl in Hp. injection Hp as Hp.
  destruct (processNext_dispatch w i l it Hfull Hfind Hl)
    as (Hl' & Hother & Hq & _).
  cbv zeta.
  destruct (getQueueStats_tally w) as (-> & -> & -> & -> & ->).
  destruct (getQueueStats_tally (processNext w).2) as (-> & -> & -> & -> & ->).
  apply list_elem_of_lookup_2 in Hi.
  assert (status (deliver (listeners w "itemProcessing")
                    (with_status Processing it)) = Processing) as Hs.
  { rewrite deliver_status; [done|]. intros cb x. apply Hkeep. }
  assert (∀ s, tally (heap (processNext w).2) s (queue (processNext w).2)
               + (if decide (Pending = s) then 1 else 0)
               = tally (heap w) s (queue w)
                 + (if decide (Processing = s) then 1 else 0)) as Hmove.
  { intros s.
    pose proof (stats_move w _ l it _ s Hnd Hi Hq Hl Hl' Hother) as H.
    by rewrite Hs, Hp in H. }
  rewrite Hq in *.
  pose proof (Hmove Pending). pose proof (Hmove Processing).
  pose proof (Hmove Completed). pose proof (Hmove Error).
  repeat case_decide; try done. lia.
Qed.

Lemma dispatch_moves_pending_to_processing_witness :
  let w := run submit_one (new_manager failing_config) in
  pending (getQueueStats w).1 = 1 ∧
  pending (getQueueStats (processNext w).2).1 = 0 ∧
  processing (getQueueStats (processNext w).2).1 = 1.
Proof.
  intros w.
  destruct (dispatch_moves_pending_to_processing failing_config w 0 0)
    as (H1 & H2 & _).
  - by exists submit_one.
  - by vm_compute.
  - by vm_compute.
  - intros cb it Hcb. vm_compute in Hcb. inversion Hcb.
  - assert (pending (getQueueStats w).1 = 1) as Hp by by vm_compute.
    assert (processing (getQueueStats w).1 = 0) as Hq by by vm_compute.
    rewrite Hp in H1. rewrite Hq in H2. split_and!; [done|lia|lia].
Defined.





(** X7: the [total] of the statistics changes only through [addScreenshot]
    (one more), a [removeScreenshot] that returns [true] (one less) and
    [clearQueue] (zero): dispatching, settling, timers, configuration
    updates and listener registration never add or drop a queued item, so
    completed and failed items stay in the queue. *)
Theorem total_changes_by_add_remove_clear (a : Action) (w : World) :
  total (getQueueStats (exec a w)).1
  = match a with
    | AddScreenshot _ _ _ _ _ => S (total (getQueueStats w).1)
    | RemoveScreenshot id =>
        if (removeScreenshot id w).1 then total (getQueueStats w).1 - 1
        else total (getQueueStats w).1
    | ClearQueue => 0
    | _ => total (getQueueStats w).1
    end.
Proof.
  destruct (getQueueStats_tally (exec a w)) as (-> & _).
  destruct (getQueueStats_tally w) as (-> & _).
  destruct a as [p pv now rnd now'| |nextItem o| |id| |newConfig| |event cb
                |event cb]; simpl.
  - destruct (addScreenshot_frame p pv now rnd now' w) as (-> & _).
    rewrite length_app. simpl. lia.
  - by destruct (processNext_frame w) as (-> & _).
  - destruct (take nextItem (awaiting w)) as [rest|]; [|done].
    by destruct (resume_frame nextItem o (with_awaiting rest w)) as (-> & _).
  - destruct (timers w) as [|d rest]; [done|].
    by destruct (processNext_frame (with_timers rest w)) as (-> & _).
  - js. destruct (list_find _ _) as [[i l]|] eqn:E; [simpl|done].
    apply list_find_Some in E as (Hi & _).
    apply length_delete. by exists l.
  - done.
  - done.
  - done.
  - done.
  - js. by destruct (events w !! event).
Qed.

(** ** EventEmitter *)

Lemma deliver_snoc (cbs : list Listener) (cb : Listener)
    (it : ScreenshotItem) :
  deliver (cbs ++ [cb]) it = call cb (deliver cbs it).
Proof. unfold deliver. by rewrite foldl_app. Qed.

(** X8: callbacks run in registration order on the same object: after
    [on(event, cb)], an [emit] of that event leaves the object as [cb] makes
    it out of what the callbacks registered before have made of it, and the
    callbacks of the other events are as before. *)
Theorem listeners_run_in_registration_order (w : World) (event : string)
    (cb : Listener) (l : loc) (it : ScreenshotItem) :
  heap w !! l = Some it →
  let w' := (on event cb w).2 in
  heap (emit event l w).2 !! l = Some (deliver (listeners w event) it) ∧
  heap (emit event l w').2 !! l
  = Some (call cb (deliver (listeners w event) it)) ∧
  (∀ event', event' ≠ event → listeners w' event' = listeners w event').
Proof.
  intros Hl. unfold listeners. js. split_and!.
  - by rewrite list_lookup_alter_eq, Hl.
  - by rewrite list_lookup_alter_eq, Hl, lookup_insert_eq, <- deliver_snoc.
  - intros event' Hne. by rewrite lookup_insert_ne.
Qed.

Lemma listeners_run_in_registration_order_witness :
  let w := run (On "itemAdded" (stamp 1 "first") :: submit_one)
             (new_manager failing_config) in
  let w' := (on "itemAdded" (stamp 2 "second") w).2 in
  preview <$> heap (emit "itemAdded" 0 w).2 !! 0 = Some "first" ∧
  preview <$> heap (emit "itemAdded" 0 w').2 !! 0 = Some "second".
Proof.
  intros w w'.
  destruct (listeners_run_in_registration_order w "itemAdded"
              (stamp 2 "second") 0
              {| item_id := "screenshot_1_k3x9"; path := "/shot.png";
                 preview := "first"; status := Pending;
                 timestamp := 1; metadata := None |})
    as (H1 & H2 & _); [by vm_compute|].
  fold w' in H2. by rewrite H1, H2.
Defined.

(** X9: [off] undoes [on]: when a callback that is not yet registered for
    an event is registered and then unregistered, every event has the
    callbacks it had before, in the same order. *)
Theorem off_undoes_on (w : World) (event : string) (cb : Listener) :
  (∀ cb', cb' ∈ listeners w event → handle cb' ≠ handle cb) →
  ∀ event',
    listeners (off event cb (on event cb w).2).2 event' = listeners w event'.
Proof.
  intros Hfresh event'. unfold listeners in *. js.
  rewrite lookup_insert_eq. simpl.
  destruct (decide (event' = event)) as [->|Hne].
  - rewrite lookup_insert_eq. simpl.
    rewrite filter_app, filter_cons_False, filter_nil by (simpl; tauto).
    rewrite (right_id_L [] (++)).
    generalize dependent (default [] (events w !! event)).
    intros cbs Hcbs. induction cbs as [|cb' cbs IH]; [done|].
    rewrite filter_cons_True by (apply Hcbs; left).
    f_equal. apply IH. intros cb'' Hcb''. apply Hcbs. by right.
  - by rewrite !lookup_insert_ne.
Qed.

Lemma off_undoes_on_witness :
  let w := run [On "itemAdded" (stamp 1 "first")]
             (new_manager failing_config) in
  listeners (off "itemAdded" (stamp 2 "second")
               (on "itemAdded" (stamp 2 "second") w).2).2 "itemAdded"
  = [stamp 1 "first"].
Proof.
  intros w. rewrite off_undoes_on; [by vm_compute|].
  intros cb' Hcb'. vm_compute in Hcb'.
  apply list_elem_of_singleton in Hcb' as ->. by vm_compute.
Defined.

(** ** Dispatch *)

(** X10: [processNext] does nothing at all, or dispatches exactly one item,
    and then the earliest pending one: the in-flight set was not full, the
    item was [Pending], no item ahead of it in the queue was, one
    [itemProcessing] is emitted for it, one solver call is made for it and
    one continuation is left waiting for the outcome. *)
Theorem processNext_takes_earliest_pending (w : World) :
  let w' := (processNext w).2 in
  w' = w ∨
  ∃ i l,
    queue w !! i = Some l ∧ has_status (heap w) Pending l ∧
    (∀ j l', queue w !! j = Some l' → j < i →
             ¬ has_status (heap w) Pending l') ∧
    (Z.of_nat (size (processingQueue w)) < maxConcurrent (config w))%Z ∧
    emitted w' = emitted w ++ [("itemProcessing", l)] ∧
    (solverCalls w').*1 = (solverCalls w).*1 ++ [l] ∧
    awaiting w' = awaiting w ++ [l].
Proof.
  js. case_decide as Hfull; [by left|].
  destruct (list_find _ _) as [[i l]|] eqn:E; [simpl|by left].
  apply list_find_Some in E as (Hi & Hp & Hbefore).
  right. exists i, l. split_and!; try done; [lia|].
  by rewrite fmap_app.
Qed.

(** ** Configuration *)

Lemma merge_config_overlay (c : QueueManagerConfig) (p q : PartialConfig) :
  merge_config (merge_config c p) q = merge_config c (overlay p q).
Proof.
  destruct p as [[?|] [?|] [?|] [?|]], q as [[?|] [?|] [?|] [?|]]; done.
Qed.

(** X11: configurations merge like object spreads.  Two [updateConfig]s in
    a row are one [updateConfig] with the later fields taking precedence; an
    [updateConfig] with no field changes nothing; and a manager built with
    overrides is a manager built with the defaults and then updated. *)
Theorem updateConfig_composes (w : World) (p q : PartialConfig) :
  (updateConfig q (updateConfig p w).2).2 = (updateConfig (overlay p q) w).2 ∧
  (updateConfig no_overrides w).2 = w ∧
  new_manager p = (updateConfig p (new_manager no_overrides)).2.
Proof.
  split_and!.
  - unfold updateConfig, modify, with_config. simpl.
    by rewrite merge_config_overlay.
  - by destruct w as [? ? [] ? ? ? ? ? ? ?].
  - done.
Qed.

(** ** Clearing while pipelines run *)

(** X12: [clearQueue] does not stop a pipeline that is running.  When it
    settles afterwards the queue and the in-flight set stay empty and no
    solver call is made, whatever [autoProcess] says; but the outcome is
    still reported: [itemCompleted] is emitted for the cleared item when the
    pipeline is fulfilled, [itemError] when it is rejected and
    [retryAttempts] is not positive. *)
Theorem settle_after_clear (w : World) (l : loc) (o : Outcome) :
  let w1 := (clearQueue w).2 in
  let w2 := (processNext_resume l o w1).2 in
  awaiting w1 = awaiting w ∧
  queue w2 = [] ∧ processingQueue w2 = ∅ ∧ retryCounts w2 = ∅ ∧
  solverCalls w2 = solverCalls w ∧
  emitted w2 = emitted w ++
    match o with
    | Fulfilled _ _ => [("itemCompleted", l)]
    | Rejected _ =>
        if decide (0 < retryAttempts (config w))%Z then []
        else [("itemError", l)]
    end.
Proof.
  cbv zeta. rewrite resume_unfold.
  assert (∀ w0, queue w0 = [] → auto_processNext w0 = (tt, w0)) as Hidle.
  { intros w0 Hq. unfold auto_processNext, bind, gets, ret. simpl.
    destruct (autoProcess (config w0)); [|done].
    unfold processNext, bind, gets, ret. simpl. rewrite Hq. simpl.
    by case_decide. }
  destruct (settle_frame l o (clearQueue w).2) as (Hq & _ & _ & _ & Hr).
  rewrite Hidle by done. simpl.
  destruct (settle_trace l o (clearQueue w).2) as (_ & _ & Hs & _).
  split_and!; [done|done| |by apply Hr|done|].
  - clear. destruct o as [ps code|msg]; js; [|case_decide; simpl];
      by rewrite !empty_difference_L.
  - clear. destruct o as [ps code|msg]; js; [done|].
    rewrite lookup_empty. simpl.
    case_decide; simpl; [|done]. by rewrite (right_id_L [] (++)).
Qed.

(** ** Submitting *)

Lemma addScreenshot_split p pv now rnd now' (w : World) :
  addScreenshot p pv now rnd now' w
  = (generateId now rnd, (auto_processNext (enqueued p pv now rnd now' w)).2).
Proof.
  unfold addScreenshot, enqueued, bind, alloc, modify, ret. simpl.
  by destruct (auto_processNext _) as [[] w'].
Qed.

Lemma enqueued_spec p pv now rnd now' (w : World) :
  let w' := enqueued p pv now rnd now' w in
  heap w' !! length (heap w)
  = Some (deliver (listeners w "itemAdded") (new_item p pv now rnd now')) ∧
  (∀ l, l < length (heap w) → heap w' !! l = heap w !! l) ∧
  queue w' = queue w ++ [length (heap w)] ∧
  emitted w' = emitted w ++ [("itemAdded", length (heap w))] ∧
  processingQueue w' = processingQueue w ∧ retryCounts w' = retryCounts w ∧
  config w' = config w ∧ events w' = events w ∧
  solverCalls w' = solverCalls w ∧ awaiting w' = awaiting w ∧
  timers w' = timers w.
Proof.
  unfold enqueued, listeners. js. split_and!; try done.
  - by rewrite list_lookup_alter_eq, lookup_app_r, Nat.sub_diag.
  - intros l Hl. rewrite list_lookup_alter_ne, lookup_app_l; [done|lia|lia].
Qed.

Lemma id_alter_fmap (f : ScreenshotItem → ScreenshotItem)
    (h : list ScreenshotItem) (l l' : loc) :
  (∀ it, item_id (f it) = item_id it) →
  item_id <$> alter f l h !! l' = item_id <$> h !! l'.
Proof.
  intros Hf. destruct (decide (l = l')) as [->|Hne];
    [rewrite list_lookup_alter_eq|by rewrite list_lookup_alter_ne].
  destruct (h !! l') as [it|]; simpl; [by rewrite Hf|done].
Qed.

Lemma processNext_keeps_ids (w : World) (l : loc) :
  keep_ids w →
  item_id <$> heap (processNext w).2 !! l = item_id <$> heap w !! l.
Proof.
  intros Hk. unfold keep_ids, listeners in Hk.
  unfold processNext, await_pipeline, emit, assign, id_of, path_of, bind,
    ret, gets, modify. simpl.
  case_decide; [done|].
  destruct (list_find _ _) as [[i l']|]; [simpl|done].
  rewrite !id_alter_fmap; [done|done|].
  intros it. apply deliver_id. intros cb x. apply Hk.
Qed.

Lemma auto_processNext_keeps_ids (w : World) (l : loc) :
  keep_ids w →
  item_id <$> heap (auto_processNext w).2 !! l = item_id <$> heap w !! l.
Proof.
  unfold auto_processNext, bind, gets, ret. simpl.
  destruct (autoProcess (config w)); [apply processNext_keeps_ids|done].
Qed.

Lemma removeScreenshot_none (id : string) (w : World) :
  list_find (has_id (heap w) id) (queue w) = None →
  removeScreenshot id w = (false, w).
Proof. intros E. js. by rewrite E. Qed.

Lemma removeScreenshot_found (id : string) (w : World) (i : nat) (l : loc) :
  list_find (has_id (heap w) id) (queue w) = Some (i, l) →
  let w' := (removeScreenshot id w).2 in
  (removeScreenshot id w).1 = true ∧
  queue w' = delete i (queue w) ∧
  processingQueue w' = processingQueue w ∖ {[id]} ∧
  retryCounts w' = delete id (retryCounts w) ∧
  heap w' = alter (deliver (listeners w "itemRemoved")) l (heap w) ∧
  emitted w' = emitted w ++ [("itemRemoved", l)] ∧
  awaiting w' = awaiting w ∧ solverCalls w' = solverCalls w ∧
  timers w' = timers w ∧ config w' = config w ∧ events w' = events w.
Proof. intros E. unfold listeners. js. by rewrite E. Qed.

(** X13: the id [addScreenshot] returns is the id of the item it has put
    last in the queue, and it can be used to take the item out again.  When
    no listener assigns to ids and no queued item carried that id before,
    [removeScreenshot] with the returned id returns [true], leaves the queue
    as it was before the submission, and leaves the id out of the in-flight
    set even if the item had been dispatched at once. *)
Theorem add_then_remove (cfg : PartialConfig) (w : World) (p pv : string)
    (now : Z) (rnd : string) (now' : Z) :
  reachable cfg w → keep_ids w →
  Forall (λ l, ¬ has_id (heap w) (generateId now rnd) l) (queue w) →
  let added := addScreenshot p pv now rnd now' w in
  let removed := removeScreenshot added.1 added.2 in
  added.1 = generateId now rnd ∧
  queue added.2 = queue w ++ [length (heap w)] ∧
  has_id (heap added.2) added.1 (length (heap w)) ∧
  removed.1 = true ∧ queue removed.2 = queue w ∧
  (added.1 ∉ processingQueue removed.2).
Proof.
  intros [_ Hq _]%wf_reachable Hk Hfresh. cbv zeta.
  rewrite addScreenshot_split. simpl.
  destruct (enqueued_spec p pv now rnd now' w)
    as (Hnew & Hold & Hq1 & _ & _ & _ & _ & He1 & _).
  set (w1 := enqueued p pv now rnd now' w) in *.
  assert (keep_ids w1) as Hk1.
  { unfold keep_ids, listeners. rewrite He1. apply Hk. }
  destruct (auto_processNext_frame w1) as (Hq2 & _).
  set (w2 := (auto_processNext w1).2) in *.
  assert (∀ l, item_id <$> heap w2 !! l = item_id <$> heap w1 !! l) as Hids.
  { intros l. by apply auto_processNext_keeps_ids. }
  assert (has_id (heap w2) (generateId now rnd) (length (heap w))) as Hid.
  { unfold has_id. rewrite Hids, Hnew. simpl. f_equal.
    apply deliver_id. intros cb x. apply Hk. }
  assert (list_find (has_id (heap w2) (generateId now rnd)) (queue w2)
          = Some (length (queue w), length (heap w))) as Hfind.
  { apply list_find_Some. rewrite Hq2, Hq1. split_and!.
    - by rewrite lookup_app_r, Nat.sub_diag.
    - done.
    - intros j l Hj Hlt. rewrite lookup_app_l in Hj by done.
      rewrite Forall_lookup in Hfresh, Hq.
      unfold has_id. rewrite Hids, Hold by eauto. by apply (Hfresh j). }
  destruct (removeScreenshot_found _ _ _ _ Hfind) as (Ht & Hq3 & Hp3 & _).
  split_and!; [done|by rewrite Hq2, Hq1|done|done| |].
  - rewrite Hq3, Hq2, Hq1.
    by rewrite delete_take_drop, take_app_length, drop_ge,
      (right_id_L [] (++)) by (rewrite length_app; simpl; lia).
  - rewrite Hp3. apply not_elem_of_difference. right.
    by apply elem_of_singleton.
Qed.

Lemma add_then_remove_witness :
  let w := run submit_one (new_manager (config_of 2 true 3 1000)) in
  let added := addScreenshot "/b.png" "b" 2 "b" 2 w in
  let removed := removeScreenshot added.1 added.2 in
  added.1 = "screenshot_2_b" ∧ removed.1 = true ∧ queue removed.2 = [0].
Proof.
  intros w added removed.
  destruct (add_then_remove (config_of 2 true 3 1000) w "/b.png" "b" 2 "b" 2)
    as (H1 & _ & _ & H4 & H5 & _).
  - by exists submit_one.
  - intros event cb it Hcb. vm_compute in Hcb. inversion Hcb.
  - apply (bool_decide_unpack _). by vm_compute.
  - fold added in H1. fold added removed in H4, H5.
    split_and!; [rewrite H1|exact H4|rewrite H5]; by vm_compute.
Defined.

Lemma tally_app (h : list ScreenshotItem) (s : Status) (q q' : list loc) :
  tally h s (q ++ q') = tally h s q + tally h s q'.
Proof. unfold tally. by rewrite filter_app, length_app. Qed.

(** The statistics of [enqueued]: one more item, of the status the
    [itemAdded] listeners have left it in. *)
Lemma enqueued_tally p pv now rnd now' (w : World) (s : Status) :
  Forall (λ l, l < length (heap w)) (queue w) →
  let w' := enqueued p pv now rnd now' w in
  tally (heap w') s (queue w')
  = tally (heap w) s (queue w)
    + (if decide (status (deliver (listeners w "itemAdded")
                            (new_item p pv now rnd now')) = s)
       then 1 else 0).
Proof.
  intros Hq. cbv zeta.
  destruct (enqueued_spec p pv now rnd now' w) as (Hnew & Hold & -> & _).
  rewrite tally_app, (tally_one _ _ _ _ Hnew). f_equal.
  apply tally_agree. intros l Hl. apply Hold.
  rewrite Forall_forall in Hq. by apply Hq.
Qed.

(** X14: with [autoProcess] off, [addScreenshot] only queues: it emits
    [itemAdded] and nothing else, the in-flight set is as before, no solver
    call is made and no continuation is left waiting; when the [itemAdded]
    listeners leave the status alone, the statistics count one more
    [pending] item and are otherwise unchanged. *)
Theorem submit_without_autoProcess (cfg : PartialConfig) (w : World)
    (p pv : string) (now : Z) (rnd : string) (now' : Z) :
  reachable cfg w → autoProcess (config w) = false →
  keep_status w "itemAdded" →
  let w' := (addScreenshot p pv now rnd now' w).2 in
  let st := (getQueueStats w).1 in
  let st' := (getQueueStats w').1 in
  emitted w' = emitted w ++ [("itemAdded", length (heap w))] ∧
  processingQueue w' = processingQueue w ∧
  solverCalls w' = solverCalls w ∧ awaiting w' = awaiting w ∧
  pending st' = S (pending st) ∧ processing st' = processing st ∧
  completed st' = completed st ∧ error st' = error st.
Proof.
  intros [_ Hq _]%wf_reachable Hauto Hkeep. cbv zeta.
  rewrite addScreenshot_split. cbn [snd].
  destruct (enqueued_spec p pv now rnd now' w)
    as (_ & _ & _ & He & Hp & _ & Hc & _ & Hs & Ha & _).
  pose proof (λ s, enqueued_tally p pv now rnd now' w s Hq) as Ht.
  set (w1 := enqueued p pv now rnd now' w) in *. clearbody w1.
  assert (auto_processNext w1 = (tt, w1)) as ->.
  { unfold auto_processNext, bind, gets, ret. simpl. by rewrite Hc, Hauto. }
  cbn [snd].
  destruct (getQueueStats_tally w) as (_ & -> & -> & -> & ->).
  destruct (getQueueStats_tally w1) as (_ & -> & -> & -> & ->).
  rewrite !Ht, deliver_status by (intros cb x; apply Hkeep). simpl.
  repeat case_decide; try done. split_and!; try done; lia.
Qed.

Lemma submit_without_autoProcess_witness :
  let w := run submit_one (new_manager failing_config) in
  let w' := (addScreenshot "/b.png" "b" 2 "b" 2 w).2 in
  pending (getQueueStats w).1 = 1 ∧ pending (getQueueStats w').1 = 2 ∧
  solverCalls w' = [].
Proof.
  intros w w'.
  destruct (submit_without_autoProcess failing_config w "/b.png" "b" 2 "b" 2)
    as (_ & _ & H3 & _ & H5 & _).
  - by exists submit_one.
  - by vm_compute.
  - intros cb it Hcb. vm_compute in Hcb. inversion Hcb.
  - fold w' in H3, H5.
    assert (pending (getQueueStats w).1 = 1) as Hp by by vm_compute.
    rewrite Hp in H5. split_and!; [done|done|]. rewrite H3. by vm_compute.
Defined.

(** X15: with [autoProcess] on, an item submitted to a manager that has a
    free slot and no pending item, and whose [itemAdded] listeners leave the
    status alone, is dispatched before [addScreenshot] returns:
    [itemAdded] and [itemProcessing] are emitted for it, in this order, and
    the solver is called for it. *)
Theorem submit_to_idle_manager (cfg : PartialConfig) (w : World)
    (p pv : string) (now : Z) (rnd : string) (now' : Z) :
  reachable cfg w → autoProcess (config w) = true →
  (Z.of_nat (size (processingQueue w)) < maxConcurrent (config w))%Z →
  Forall (λ l, ¬ has_status (heap w) Pending l) (queue w) →
  keep_status w "itemAdded" →
  let w' := (addScreenshot p pv now rnd now' w).2 in
  let l := length (heap w) in
  emitted w' = emitted w ++ [("itemAdded", l); ("itemProcessing", l)] ∧
  (solverCalls w').*1 = (solverCalls w).*1 ++ [l] ∧
  awaiting w' = awaiting w ++ [l] ∧
  status <$> heap w' !! l
  = Some (status (deliver (listeners w "itemProcessing")
                    (with_status Processing
                       (deliver (listeners w "itemAdded")
                          (new_item p pv now rnd now'))))).
Proof.
  intros [_ Hq _]%wf_reachable Hauto Hfree Hidle Hkeep. cbv zeta.
  rewrite addScreenshot_split. simpl.
  destruct (enqueued_spec p pv now rnd now' w)
    as (Hnew & Hold & Hq1 & He & Hp & _ & Hc & Hev & Hs & Ha & _).
  set (w1 := enqueued p pv now rnd now' w) in *. clearbody w1.
  assert ((auto_processNext w1).2 = (processNext w1).2) as ->.
  { unfold auto_processNext, bind, gets, ret. simpl. by rewrite Hc, Hauto. }
  assert (list_find (has_status (heap w1) Pending) (queue w1)
          = Some (length (queue w), length (heap w))) as Hfind.
  { apply list_find_Some. rewrite Hq1. split_and!.
    - by rewrite lookup_app_r, Nat.sub_diag.
    - unfold has_status. rewrite Hnew. simpl. f_equal.
      rewrite deliver_status; [done|]. intros cb x. apply Hkeep.
    - intros j l Hj Hlt. rewrite lookup_app_l in Hj by done.
      rewrite Forall_lookup in Hidle, Hq.
      unfold has_status. rewrite Hold by eauto. by apply (Hidle j). }
  destruct (processNext_dispatch w1 _ _ _ ltac:(rewrite Hp, Hc; lia)
              Hfind Hnew) as (Hl2 & _ & _ & _ & He2 & Hs2 & Ha2 & _).
  rewrite He2, Hs2, Ha2, He, Hs, Ha, Hl2, fmap_app, <- (assoc_L (++)).
  unfold listeners. by rewrite Hev.
Qed.

Lemma submit_to_idle_manager_witness :
  let w := new_manager no_overrides in
  let w' := (addScreenshot "/a.png" "a" 1 "a" 1 w).2 in
  emitted w' = [("itemAdded", 0); ("itemProcessing", 0)] ∧
  (solverCalls w').*1 = [0].
Proof.
  intros w w'.
  destruct (submit_to_idle_manager no_overrides w "/a.png" "a" 1 "a" 1)
    as (H1 & H2 & _).
  - by exists [].
  - done.
  - by vm_compute.
  - constructor.
  - intros cb it Hcb. vm_compute in Hcb. inversion Hcb.
  - fold w' in H1, H2. by rewrite H1, H2.
Defined.

(** ** Removing *)

(** X16: when exactly one queued item carries an id, removing that id works
    once: the second [removeScreenshot] with the same id returns [false] and
    changes nothing. *)
Theorem remove_twice (cfg : PartialConfig) (w : World) (id : string)
    (i : nat) (l : loc) :
  reachable cfg w →
  list_find (has_id (heap w) id) (queue w) = Some (i, l) →
  (∀ l', l' ∈ queue w → has_id (heap w) id l' → l' = l) →
  let w1 := (removeScreenshot id w).2 in
  (removeScreenshot id w).1 = true ∧
  removeScreenshot id w1 = (false, w1).
Proof.
  intros [Hnd _ _]%wf_reachable Hfind Honly. cbv zeta.
  destruct (removeScreenshot_found id w i l Hfind)
    as (Ht & Hq1 & _ & _ & Hh1 & _).
  split; [done|]. apply removeScreenshot_none, list_find_None.
  rewrite Hq1, Hh1. apply Forall_forall. intros l' Hl'.
  apply list_find_Some in Hfind as (Hi & _).
  assert (l' ≠ l) as Hne.
  { intros ->. by apply (NoDup_delete_lookup (queue w) i l). }
  unfold has_id. rewrite list_lookup_alter_ne by done.
  intros Hid. apply Hne, Honly; [|done].
  by eapply list_elem_of_delete_inv.
Qed.

Lemma remove_twice_witness :
  let w := run two_in_flight (new_manager (config_of 2 true 3 1000)) in
  let w1 := (removeScreenshot "screenshot_1_a" w).2 in
  queue w1 = [1] ∧ removeScreenshot "screenshot_1_a" w1 = (false, w1).
Proof.
  intros w w1.
  destruct (remove_twice (config_of 2 true 3 1000) w "screenshot_1_a" 0 0)
    as [_ H].
  - by exists two_in_flight.
  - by vm_compute.
  - intros l' Hl' Hid.
    assert (queue w = [0; 1]) as Hq by by vm_compute.
    rewrite Hq in Hl'.
    apply elem_of_cons in Hl' as [->|Hl']; [done|].
    apply list_elem_of_singleton in Hl' as ->.
    vm_compute in Hid. discriminate Hid.
  - split; [by vm_compute|exact H].
Defined.

(** ** Retrying under [autoProcess] *)

Lemma size_remove_elem (x : string) (X : gset string) :
  x ∈ X → S (size (X ∖ {[x]})) = size X.
Proof.
  intros Hx. rewrite size_difference, size_singleton
    by by apply singleton_subseteq_l.
  assert (size X ≠ 0); [|lia].
  apply size_non_empty_iff. intros HX. apply HX in Hx.
  by apply not_elem_of_empty in Hx.
Qed.

(** X17: with [autoProcess] on, a retry does not wait for [retryDelay].
    In a world the manager can be in, with the in-flight set within
    [maxConcurrent], when the pipeline of a queued in-flight item is
    rejected under a positive [retryAttempts] and no item ahead of it in the
    queue is pending, the item is dispatched again before [processNext]
    returns: [itemProcessing] is emitted and the solver is called for it at
    once, while the timer set for the retry is still pending. *)
Theorem retry_does_not_wait (cfg : PartialConfig) (w : World) (i : nat)
    (l : loc) (it : ScreenshotItem) (msg : string) :
  reachable cfg w → cap_ok w →
  autoProcess (config w) = true → (0 < retryAttempts (config w))%Z →
  queue w !! i = Some l → heap w !! l = Some it →
  item_id it ∈ processingQueue w →
  (∀ j l', queue w !! j = Some l' → j < i →
           ¬ has_status (heap w) Pending l') →
  let w' := (processNext_resume l (Rejected msg) w).2 in
  emitted w' = emitted w ++ [("itemProcessing", l)] ∧
  (solverCalls w').*1 = (solverCalls w).*1 ++ [l] ∧
  awaiting w' = awaiting w ++ [l] ∧
  timers w' = timers w ++ [retryDelay (config w)] ∧
  (item_id it ∈ processingQueue w').
Proof.
  intros Hw Hcap Hauto Hpos Hi Hl Hin Hfirst. cbv zeta.
  pose proof (wf_reachable _ _ Hw) as [Hnd _ Hr].
  rewrite resume_unfold.
  destruct (settle_retried w l it Hl msg)
    as (Hl1 & Hother & He1 & Hp1 & _ & Ht1); [by rewrite Hr, lookup_empty|].
  destruct (settle_frame l (Rejected msg) w) as (Hq1 & _ & Hc1 & _).
  destruct (settle_trace l (Rejected msg) w) as (_ & Ha1 & Hs1 & _).
  set (w1 := (processNext_settle l (Rejected msg) w).2) in *. clearbody w1.
  assert ((auto_processNext w1).2 = (processNext w1).2) as ->.
  { unfold auto_processNext, bind, gets, ret. simpl. by rewrite Hc1, Hauto. }
  assert (list_find (has_status (heap w1) Pending) (queue w1) = Some (i, l))
    as Hfind.
  { apply list_find_Some. rewrite Hq1. split_and!; [done| |].
    - unfold has_status. by rewrite Hl1.
    - intros j l' Hj Hlt. unfold has_status. rewrite Hother.
      + by apply (Hfirst j).
      + intros ->. pose proof (NoDup_lookup _ _ _ _ Hnd Hi Hj). lia. }
  assert (¬ (maxConcurrent (config w1)
             ≤ Z.of_nat (size (processingQueue w1)))%Z) as Hfree.
  { rewrite Hc1, Hp1. unfold cap_ok in Hcap.
    pose proof (size_remove_le (item_id it)
                  (processingQueue w ∖ {[item_id it]})) as H1.
    pose proof (size_remove_elem _ _ Hin) as H2.
    lia. }
  destruct (processNext_dispatch w1 i l _ Hfree Hfind Hl1)
    as (_ & _ & _ & Hp2 & He2 & Hs2 & Ha2 & _ & _ & Ht2).
  rewrite He2, Hs2, Ha2, Ht2, Hp2, He1, Hs1, Ha1, Ht1, fmap_app.
  split_and!; try done. apply elem_of_union. left.
  by apply elem_of_singleton.
Qed.

Lemma retry_does_not_wait_witness :
  let w := run submit_one (new_manager no_overrides) in
  let w' := (processNext_resume 0 (Rejected "net-error") w).2 in
  (solverCalls w).*1 = [0] ∧ (solverCalls w').*1 = [0; 0] ∧
  timers w' = [1000%Z].
Proof.
  intros w w'.
  destruct (retry_does_not_wait no_overrides w 0 0
              {| item_id := "screenshot_1_k3x9"; path := "/shot.png";
                 preview := "preview"; status := Processing;
                 timestamp := 1; metadata := None |} "net-error")
    as (_ & H2 & _ & H4 & _).
  - by exists submit_one.
  - by vm_compute.
  - by vm_compute.
  - by vm_compute.
  - by vm_compute.
  - by vm_compute.
  - apply (bool_decide_unpack _). by vm_compute.
  - intros j l' _ Hj. lia.
  - fold w' in H2, H4.
    split_and!; [by vm_compute|rewrite H2|rewrite H4]; by vm_compute.
Defined.

(** ** Ids *)

Lemma pretty_N_go_no_underscore (x : N) (s : string) :
  no_underscore s → no_underscore (pretty_N_go x s).
Proof.
  revert s. induction (N.lt_wf_0 x) as [x _ IH]; intros s Hs.
  assert (x = 0 ∨ 0 < x)%N as [->|Hx] by lia.
  - by rewrite pretty_N_go_0.
  - rewrite pretty_N_go_step by done. apply IH; [by apply N.div_lt|].
    split; [|done]. unfold pretty_N_char. by repeat case_match.
Qed.

Lemma pretty_Z_no_underscore (z : Z) : no_underscore (pretty z).
Proof.
  assert (∀ n : N, no_underscore (pretty n)) as HN.
  { intros n. unfold pretty, pretty_N. case_decide; [by simpl|].
    by apply pretty_N_go_no_underscore. }
  destruct z as [|x|x]; [by simpl|apply HN|].
  split; [done|apply HN].
Qed.

(** Two strings that agree after an underscore-free head and an underscore
    agree on head and tail. *)
Lemma split_at_underscore (a a' r r' : string) :
  no_underscore a → no_underscore a' →
  a +:+ String "_" r = a' +:+ String "_" r' → a = a' ∧ r = r'.
Proof.
  revert a'. induction a as [|c a IH]; intros [|c' a']; simpl.
  - by intros _ _ [= ->].
  - by intros _ [Hc _] [= <-].
  - by intros [Hc _] _ [= ->].
  - intros [_ Ha] [_ Ha'] [= -> H]. by destruct (IH a' Ha Ha' H) as [-> ->].
Qed.

(** X18: [generateId] is injective: two submissions are given the same id
    only when both the clock value and the random suffix coincide. *)
Theorem generateId_inj (now now' : Z) (rnd rnd' : string) :
  generateId now rnd = generateId now' rnd' → now = now' ∧ rnd = rnd'.
Proof.
  unfold generateId. intros H.
  change (String.append "screenshot_"
            (pretty now +:+ String "_" rnd)
          = String.append "screenshot_"
              (pretty now' +:+ String "_" rnd')) in H.
  simpl in H. injection H as H.
  apply split_at_underscore in H as [Hnow ->];
    [|apply pretty_Z_no_underscore..].
  split; [|done]. by apply (inj pretty).
Qed.

Lemma generateId_inj_witness :
  (1700000000000 = 1700000000000)%Z ∧ "k3x9" = "k3x9".
Proof.
  apply (generateId_inj 1700000000000 1700000000000 "k3x9" "k3x9").
  by vm_compute.
Defined.

(** ** Slots and running pipelines *)

Lemma elem_of_delete_other (q : list loc) (i : nat) (l l' : loc) :
  q !! i = Some l → l' ∈ q → l' ≠ l → l' ∈ delete i q.
Proof.
  revert i. induction q as [|x q IH]; intros i Hi Hl' Hne; [done|].
  destruct i as [|i]; simpl in *.
  - injection Hi as ->. by apply elem_of_cons in Hl' as [->|Hl'].
  - apply elem_of_cons in Hl' as [->|Hl']; [left|right]. by eapply IH.
Qed.

(** X19: [maxConcurrent] bounds the in-flight set, not the pipelines that
    are running.  Removing an item that is in flight frees its slot at once
    while its pipeline keeps running, so that with another item pending the
    next [processNext] dispatches one more: one more continuation is waiting
    than before the removal, and the bound on the in-flight set still
    holds. *)
Theorem removal_frees_a_slot (cfg : PartialConfig) (w : World) (id : string)
    (i : nat) (l l' : loc) :
  reachable cfg w → cap_ok w →
  list_find (has_id (heap w) id) (queue w) = Some (i, l) →
  id ∈ processingQueue w →
  l' ∈ queue w → l' ≠ l → has_status (heap w) Pending l' →
  let w1 := (removeScreenshot id w).2 in
  let w2 := (processNext w1).2 in
  awaiting w1 = awaiting w ∧
  (∃ l2, awaiting w2 = awaiting w ++ [l2] ∧
         (solverCalls w2).*1 = (solverCalls w).*1 ++ [l2] ∧
         has_status (heap w) Pending l2) ∧
  cap_ok w2.
Proof.
  intros Hw Hcap Hfind Hin Hl' Hne Hp. cbv zeta.
  destruct (removeScreenshot_found id w i l Hfind)
    as (_ & Hq1 & Hp1 & _ & Hh1 & _ & Ha1 & Hs1 & _ & Hc1 & _).
  pose proof (removeScreenshot_cap id w Hcap) as Hcap1.
  set (w1 := (removeScreenshot id w).2) in *. clearbody w1.
  apply list_find_Some in Hfind as (Hi & _).
  assert (∀ x, x ≠ l → heap w1 !! x = heap w !! x) as Hother.
  { intros x Hx. by rewrite Hh1, list_lookup_alter_ne. }
  assert (is_Some (list_find (has_status (heap w1) Pending) (queue w1)))
    as [[j l2] Hfind2].
  { apply (list_find_elem_of _ _ l').
    - rewrite Hq1. by eapply elem_of_delete_other.
    - unfold has_status. by rewrite Hother. }
  pose proof Hfind2 as (Hj & Hp2 & _)%list_find_Some.
  assert (l2 ≠ l) as Hne2.
  { intros ->. rewrite Hq1 in Hj. apply list_elem_of_lookup_2 in Hj.
    revert Hj. apply NoDup_delete_lookup; [|done].
    by apply (wf_reachable cfg). }
  unfold has_status in Hp2.
  destruct (heap w1 !! l2) as [it2|] eqn:Hl2; [|done].
  assert (¬ (maxConcurrent (config w1)
             ≤ Z.of_nat (size (processingQueue w1)))%Z) as Hfree.
  { rewrite Hc1, Hp1. unfold cap_ok in Hcap.
    pose proof (size_remove_elem _ _ Hin). lia. }
  destruct (processNext_dispatch w1 j l2 it2 Hfree Hfind2 Hl2)
    as (_ & _ & _ & _ & _ & Hs2 & Ha2 & _).
  split_and!; [done| |by apply processNext_cap].
  exists l2. rewrite Ha2, Hs2, Ha1, Hs1, fmap_app. split_and!; try done.
  unfold has_status. by rewrite <- Hother, Hl2.
Qed.

Lemma removal_frees_a_slot_witness :
  let w := run two_in_flight (new_manager (config_of 1 true 3 1000)) in
  let w2 := (processNext (removeScreenshot "screenshot_1_a" w).2).2 in
  maxConcurrent (config w2) = 1%Z ∧ length (awaiting w) = 1 ∧
  length (awaiting w2) = 2 ∧ cap_ok w2.
Proof.
  intros w w2.
  destruct (removal_frees_a_slot (config_of 1 true 3 1000) w
              "screenshot_1_a" 0 0 1) as (_ & (l2 & H2 & _) & H3).
  - by exists two_in_flight.
  - by vm_compute.
  - by vm_compute.
  - apply (bool_decide_unpack _). by vm_compute.
  - apply (list_elem_of_lookup_2 _ 1). by vm_compute.
  - done.
  - by vm_compute.
  - fold w2 in H2, H3. split_and!; [by vm_compute|by vm_compute| |done].
    rewrite H2, length_app. by vm_compute.
Defined.

(** * Retry exhaustion *)


(** ** Counting solver calls *)




(** ** Statuses across a step *)






(** ** The invariant of a steady manager *)










